(** * The OpenJSCAD command line front end ([src/js/future-cli.js])

    A shallow embedding of the argument parser [parseArgs], of the output
    resolver [determineOutputNameAndFormat] and of the top-level sequence
    that calls them, together with the regular expressions they rely on.

    Strings are sequences of code units below 256 ([ascii]); the JavaScript
    values the program stores in its variables are [undefined], [null] or a
    string.  Console output and the calls into collaborators are recorded in
    a trace that is threaded through the computation. *)

From Stdlib Require Import Ascii String NArith Bool.
From stdpp Require Import base option list strings gmap.

Local Open Scope char_scope.
Local Open Scope string_scope.

(** ** Character classes of the regular expressions *)

Module Chars.

Definition code (c : ascii) : N := N_of_ascii c.

Definition between (lo hi : N) (c : ascii) : bool :=
  (lo <=? code c)%N && (code c <=? hi)%N.

(** [.] matches every character but a line terminator (LF, CR; the two
    other terminators, U+2028 and U+2029, lie above the modelled range). *)
Definition is_line_terminator (c : ascii) : bool :=
  (code c =? 10)%N || (code c =? 13)%N.

(** [\s]: TAB, LF, VT, FF, CR, space and the no-break space. *)
Definition is_white_space (c : ascii) : bool :=
  between 9 13 c || (code c =? 32)%N || (code c =? 160)%N.

(** [\w]: letters, digits and the underscore. *)
Definition is_word_char (c : ascii) : bool :=
  between 97 122 c || between 65 90 c || between 48 57 c || (code c =? 95)%N.

Definition is_upper (c : ascii) : bool := between 65 90 c.

(** Case folding as the [i] flag sees it on this range: only the letters
    A-Z and a-z are identified. *)
Definition to_lower (c : ascii) : ascii :=
  if is_upper c then ascii_of_N (code c + 32) else c.

Definition any_char (c : ascii) : bool := negb (is_line_terminator c).
Definition non_space (c : ascii) : bool := negb (is_white_space c).
Definition is_dot (c : ascii) : bool := (code c =? 46)%N.
Definition non_dot (c : ascii) : bool := negb (is_dot c).

End Chars.

(** ** String helpers and the matching combinators *)

Module Str.
Import Chars.

Fixpoint lower (s : string) : string :=
  match s with
  | "" => ""
  | String c t => String (to_lower c) (lower t)
  end.

Fixpoint all (p : ascii -> bool) (s : string) : bool :=
  match s with
  | "" => true
  | String c t => p c && all p t
  end.

Definition nonempty (s : string) : bool :=
  match s with "" => false | String _ _ => true end.

Definition eqb (a b : string) : bool := bool_decide (a = b).

(** The longest prefix whose characters satisfy [p], and what follows. *)
Fixpoint span (p : ascii -> bool) (s : string) : string * string :=
  match s with
  | "" => ("", "")
  | String c t =>
      if p c then let '(a, b) := span p t in (String c a, b) else ("", s)
  end.

Fixpoint take (n : nat) (s : string) : string :=
  match n, s with
  | S k, String c t => String c (take k t)
  | _, _ => ""
  end.

(** [strip_prefix p s]: what follows [p] in [s], when [s] starts with [p]. *)
Fixpoint strip_prefix (p s : string) : option string :=
  match p, s with
  | "", _ => Some s
  | String a p', String b s' => if bool_decide (a = b) then strip_prefix p' s' else None
  | String _ _, "" => None
  end.

(** An unanchored pattern is tried at every position, from the left. *)
Fixpoint search {A} (m : string -> option A) (s : string) : option A :=
  match m s with
  | Some r => Some r
  | None => match s with
            | "" => None
            | String _ t => search m t
            end
  end.

(** [.+] followed by the pattern [k]: greedy, giving characters back one
    at a time until [k] matches. *)
Fixpoint dot_plus_then {A} (k : string -> option A) (s : string) : option A :=
  match s with
  | "" => None
  | String c t =>
      if any_char c then
        match dot_plus_then k t with
        | Some r => Some r
        | None => k t
        end
      else None
  end.

(** The alternation [(a1|a2|...)] followed by [$]: the first alternative
    equal to all of the remaining text; the group captures that text. *)
Fixpoint alt_to_end (ci : bool) (alts : list string) (s : string) : option string :=
  match alts with
  | [] => None
  | a :: rest =>
      if eqb (if ci then lower s else s) a then Some s
      else alt_to_end ci rest s
  end.

(** [\.(a1|a2|...)$] at the current position. *)
Definition dot_alt_to_end (ci : bool) (alts : list string) (s : string) : option string :=
  match s with
  | String c t => if is_dot c then alt_to_end ci alts t else None
  | "" => None
  end.

(** The alternation [(a1|a2|...)] with nothing after it, under the [i]
    flag: the first alternative that the text starts with; the group
    captures the characters it matched. *)
Fixpoint alt_prefix_ci (alts : list string) (s : string) : option string :=
  match alts with
  | [] => None
  | a :: rest =>
      let n := String.length a in
      if eqb (lower (take n s)) a then Some (take n s)
      else alt_prefix_ci rest s
  end.

End Str.

(** ** The regular expressions of the program *)

Module Regex.
Import Chars Str.

(** [/^-o(\S.+)/], line 129. *)
Definition test_dash_o_value (s : string) : bool :=
  match strip_prefix "-o" s with
  | Some (String c (String d _)) => non_space c && any_char d
  | _ => false
  end.

(** [s.replace(/^\-o(\S+)$/, '$1')], line 131. *)
Definition replace_dash_o (s : string) : string :=
  match strip_prefix "-o" s with
  | Some v => if nonempty v && all non_space v then v else s
  | None => s
  end.

(** Line 134: [^--(\w+)=] followed by a second group holding [.] repeated
    with a star, unanchored at the end; the groups [$1] and [$2]. *)
Definition match_param_assign (s : string) : option (string * string) :=
  match strip_prefix "--" s with
  | Some r =>
      match span is_word_char r with
      | (String c n, String e v) =>
          if bool_decide (e = "="%char) then Some (String c n, fst (span any_char v)) else None
      | _ => None
      end
  | None => None
  end.

(** [/^--(\w+)$/], lines 136 and 138: the group [$1]. *)
Definition match_param_name (s : string) : option string :=
  match strip_prefix "--" s with
  | Some n => if nonempty n && all is_word_char n then Some n else None
  | None => None
  end.

Definition input_extensions : list string :=
  ["jscad"; "js"; "scad"; "stl"; "amf"; "obj"; "gcode"; "svg"; "json"].

(** [/.+\.(jscad|js|scad|stl|amf|obj|gcode|svg|json)$/i], line 140:
    the group [$1]. *)
Definition match_input_file (s : string) : option string :=
  search (dot_plus_then (dot_alt_to_end true input_extensions)) s.

(** [/^-v$/], line 147. *)
Definition test_dash_v (s : string) : bool := eqb s "-v".

Definition output_extensions : list string :=
  ["jscad"; "js"; "stl"; "amf"; "dxf"; "svg"].

(** [/\.(jscad|js|stl|amf|dxf|svg)$/], line 172: the group [$1]. *)
Definition match_output_file (s : string) : option string :=
  search (dot_alt_to_end false output_extensions) s.

Definition output_formats : list string :=
  ["jscad"; "js"; "stl"; "stla"; "stlb"; "amf"; "dxf"; "svg"].

(** [/(jscad|js|stl|stla|stlb|amf|dxf|svg)/i], line 177: the group [$1]. *)
Definition match_output_format (s : string) : option string :=
  search (alt_prefix_ci output_formats) s.

(** [ext.replace(/stl[ab]/, 'stl')], line 180. *)
Fixpoint replace_stl_ab (s : string) : string :=
  match strip_prefix "stl" s with
  | Some (String c r) =>
      if bool_decide (c = "a"%char) || bool_decide (c = "b"%char) then "stl" +:+ r
      else match s with "" => "" | String h t => String h (replace_stl_ab t) end
  | _ => match s with "" => "" | String h t => String h (replace_stl_ab t) end
  end.

(** [s.replace(/\.([^\.]+)$/, '.' + ext)], line 182.  [ext] is a run of
    letters here, so the replacement text holds no [$] pattern. *)
Fixpoint replace_extension (ext s : string) : string :=
  match s with
  | "" => ""
  | String c t =>
      if is_dot c && nonempty t && all non_dot t then "." +:+ ext
      else String c (replace_extension ext t)
  end.

(** [/\.stl$/i], line 93. *)
Definition test_stl_file (s : string) : bool :=
  bool_decide (is_Some (search (dot_alt_to_end true ["stl"]) s)).

End Regex.

(** ** Values, failures and the effect trace *)

(** What a variable of the program holds. *)
Inductive value : Type :=
  | undefined
  | null
  | str (s : string).

Global Instance value_eq_dec : EqDecision value.
Proof. solve_decision. Defined.

(** The values that count as true in a condition: the non-empty strings. *)
Definition truthy (v : value) : bool :=
  match v with
  | str s => Str.nonempty s
  | _ => false
  end.

(** A value inside a template literal or a string concatenation. *)
Definition display (v : value) : string :=
  match v with
  | undefined => "undefined"
  | null => "null"
  | str s => s
  end.

(** [obj[key] = v] on an object literal, for [v] a string or [undefined]
    (all that [parseArgs] stores): an own property is written, except under
    the key [__proto__], whose inherited setter ignores such a value. *)
Definition obj_set (key : string) (v : value) (o : gmap string value) : gmap string value :=
  if bool_decide (key = "__proto__") then o else <[key := v]> o.

(** The calls of the top level into its collaborators. *)
Inductive call : Type :=
  | CallMakeInputFormatHandlers        (* line 84 *)
  | CallReadInput                      (* fs.readFileSync, line 93 *)
  | CallDecode                         (* the handler of the input format, line 95 *)
  | CallReadHelpers                    (* fs.readFileSync, line 98 *)
  | CallGenerateOutputData             (* line 99 *)
  | CallAsBuffer                       (* outputData.asBuffer(), line 192 *)
  | CallWriteFile.                     (* fs.writeFile, line 192 *)

(** The places where the program gives up: each [process.exit(1)] with the
    diagnostic printed before it, and the exceptions nothing catches. *)
Inductive failure : Type :=
  | ExitUsage                          (* lines 113-117 *)
  | ExitInvalidArgument (tok : string) (* lines 151-153 *)
  | ExitCannotOpen (path : string)     (* lines 144-145 *)
  | ExitNoInput                        (* line 157 *)
  | ExitInvalidOutputFile (f : string) (* lines 175-176 *)
  | ExitInvalidOutputFormat (f : string) (* lines 185-186 *)
  | ThrowStat (path : string)          (* fs.statSync on a missing path *)
  | ThrowTypeError                     (* a method of [undefined], a call of [undefined] *)
  | ThrowReport                        (* an exception out of the [-v] report *)
  | ThrowFrom (c : call).              (* an exception out of a collaborator *)

(** The error taxonomy of the specification. *)
Inductive error_class : Type :=
  | UsageError
  | FileNotFoundError
  | InvalidOutputError
  | UncaughtError.

Global Instance error_class_eq_dec : EqDecision error_class.
Proof. solve_decision. Defined.

Definition classify (f : failure) : error_class :=
  match f with
  | ExitUsage | ExitInvalidArgument _ | ExitNoInput => UsageError
  | ExitCannotOpen _ | ThrowStat _ => FileNotFoundError
  | ExitInvalidOutputFile _ | ExitInvalidOutputFormat _ => InvalidOutputError
  | ThrowTypeError | ThrowReport | ThrowFrom _ => UncaughtError
  end.

Inductive event : Type :=
  | ConsoleLog (line : string)
  | ReadFile (path : string) (binary : bool)   (* fs.readFileSync, line 93 *)
  | Decode (format : value)                    (* inputFormatHandlers[...], line 95 *)
  | ReadHelpers                                (* fs.readFileSync, line 98 *)
  | Encode (format : value)                    (* generateOutputData, line 99 *)
  | WriteFile (path : value).                  (* writeOutputDataToFile, line 102 *)

Inductive outcome (A : Type) : Type :=
  | Returned (a : A)
  | Failed (f : failure).
Arguments Returned {A} a.
Arguments Failed {A} f.

(** A computation extends the trace and returns or fails. *)
Definition M (A : Type) : Type := list event -> outcome A * list event.

Definition ret {A} (a : A) : M A := fun tr => (Returned a, tr).

Definition bind {A B} (m : M A) (k : A -> M B) : M B :=
  fun tr =>
    match m tr with
    | (Returned a, tr') => k a tr'
    | (Failed f, tr') => (Failed f, tr')
    end.

Definition emit (e : event) : M unit := fun tr => (Returned tt, (tr ++ [e])%list).

Definition log (line : string) : M unit := emit (ConsoleLog line).

Definition fail {A} (f : failure) : M A := fun tr => (Failed f, tr).

Notation "x <- m ;; k" := (bind m (fun x => k))
  (at level 100, m at next level, right associativity).
Notation "m ;;; k" := (bind m (fun _ => k))
  (at level 100, right associativity).

(** Running a computation from the empty trace. *)
Definition run {A} (m : M A) : outcome A * list event := m [].

Definition result {A} (m : M A) : outcome A := fst (run m).

Definition fails_with {A} (c : error_class) (o : outcome A) : Prop :=
  match o with
  | Failed f => classify f = c
  | Returned _ => False
  end.


(** ** The environment of a run *)

(** What the program asks of its surroundings while it parses: the file
    system behind [fs.statSync(path).isFile()] ([None]: the call throws, as
    it does for a path that does not exist) and the two calls of the [-v]
    report.  [OpenJsCad] is bound by line 51; [openscad] has no binding in
    this file, so what evaluating [openscad.version()] does is left to the
    environment ([None]: it throws). *)
Record World : Type := mkWorld {
  statSync_isFile : string -> option bool;
  OpenJsCad_env : option (list string);
  openscad_version : option string
}.

(** A handler of [inputFormatHandlers]: from the content of the input file,
    the input path and the output path to a script; [None]: it throws. *)
Definition handler : Type := string → string → value → option string.

(** What the top level asks of its collaborators once the arguments are
    parsed; for each call, [None] says that it throws.
    - [makeInputFormatHandlers] (line 84) gives the table of handlers, from
      a property key to a handler ([None]: no such property).
    - [readFileSync] (line 93) takes the path and whether the encoding is
      ['binary'].
    - [readHelpers] is the read of [lib/openscad.js] (line 98).
    - [generateOutputData] (line 99) takes the helpers, [gMainParam], the
      output format and the script ([meta] is fixed by lines 57-60); its
      result is given by what [asBuffer()] returns on it.
    - [writeFile] (line 192) takes the path and the buffer; when it does
      not throw, its callback receives no error ([Some None]) or an error,
      given as [console.log] prints it. *)
Record Collaborators : Type := mkCollaborators {
  makeInputFormatHandlers : option (string → option handler);
  readFileSync : string → bool → option string;
  readHelpers : option string;
  generateOutputData :
    string → gmap string value → value → string → option (option string);
  writeFile : value → string → option (option string)
}.

(** [formatNames], lines 61-73. *)
Definition formatNames : gmap string string :=
  list_to_map [
    ("jscad", "OpenJSCAD.org Source");
    ("js", "JavaScript Source");
    ("stl", "STereoLithography, ASCII");
    ("stla", "STereoLithography, ASCII");
    ("stlb", "STereoLithography, Binary");
    ("amf", "Additive Manufacturing File Format");
    ("x3d", "X3D File Format");
    ("gcode", "G Programming Language File Format");
    ("dxf", "AutoCAD Drawing Exchange Format");
    ("svg", "Scalable Vector Graphics Format");
    ("json", "JavaScript Object Notation Format") ].

Definition TAB : string := String (ascii_of_N 9) "".
Definition LF : string := String (ascii_of_N 10) "".

(** The object [parseArgs] returns, which is also the state of its loop. *)
Record Args : Type := mkArgs {
  inputFile : value;
  inputFormat : value;
  outputFile : value;
  outputFormat : value;
  gMainParam : gmap string value
}.

Definition set_inputFile (v : value) (a : Args) : Args :=
  mkArgs v (inputFormat a) (outputFile a) (outputFormat a) (gMainParam a).
Definition set_inputFormat (v : value) (a : Args) : Args :=
  mkArgs (inputFile a) v (outputFile a) (outputFormat a) (gMainParam a).
Definition set_outputFile (v : value) (a : Args) : Args :=
  mkArgs (inputFile a) (inputFormat a) v (outputFormat a) (gMainParam a).
Definition set_outputFormat (v : value) (a : Args) : Args :=
  mkArgs (inputFile a) (inputFormat a) (outputFile a) v (gMainParam a).
Definition set_param (key : string) (v : value) (a : Args) : Args :=
  mkArgs (inputFile a) (inputFormat a) (outputFile a) (outputFormat a)
         (obj_set key v (gMainParam a)).

(** Lines 120-124: the variables before the loop. *)
Definition initial : Args := mkArgs undefined undefined undefined undefined ∅.

(** [args[++i]]: the next token, or [undefined] past the end. *)
Definition next_arg (rest : list string) : value :=
  match rest with
  | [] => undefined
  | t :: _ => str t
  end.

Fixpoint log_lines (lines : list string) : M unit :=
  match lines with
  | [] => ret tt
  | l :: rest => log l ;;; log_lines rest
  end.

Import Regex.

Section Program.

Variable W : World.
Variable K : Collaborators.

(** ** parseArgs, lines 105-169 *)

(** One turn of the loop of line 126 on the token [args[i]]; [rest] holds
    the tokens after it.  The boolean tells whether the turn evaluated
    [++i], that is whether it used up the following token as well. *)
Definition parse_token (tok : string) (rest : list string) (a : Args) : M (Args * bool) :=
  if Str.eqb tok "-of" then
    ret (set_outputFormat (next_arg rest) a, true)
  else if test_dash_o_value tok then
    ret (set_outputFile (str (replace_dash_o tok)) a, false)
  else if Str.eqb tok "-o" then
    ret (set_outputFile (next_arg rest) a, true)
  else match match_param_assign tok with
  | Some (name, v) => ret (set_param name (str v) a, false)
  | None =>
  match match_param_name tok with
  | Some name => ret (set_param name (next_arg rest) a, true)
  | None =>
  (* line 138 repeats the test of line 136 and is never reached *)
  match match_input_file tok with
  | Some ext =>
      let a' := set_inputFormat (str ext) (set_inputFile (str tok) a) in
      match statSync_isFile W tok with
      | None => fail (ThrowStat tok)
      | Some false =>
          log ("ERROR: cannot open file <" +:+ tok +:+ ">") ;;;
          fail (ExitCannotOpen tok)
      | Some true => ret (a', false)
      end
  | None =>
  if test_dash_v tok then
    match OpenJsCad_env W with
    | None => fail ThrowReport
    | Some lines =>
        log_lines lines ;;;
        match openscad_version W with
        | None => fail ThrowReport
        | Some v =>
            log ("OpenSCAD Compatibility (" +:+ v +:+ ")") ;;;
            ret (a, false)
        end
    end
  else
    log ("ERROR: invalid file name or argument <" +:+ tok +:+ ">") ;;;
    log "Type 'openjscad' for help" ;;;
    fail (ExitInvalidArgument tok)
  end end end.

(** The loop of lines 126-155 over the tokens from [args[i]] on. *)
Fixpoint parse_loop (args : list string) (a : Args) : M Args :=
  match args with
  | [] => ret a
  | tok :: rest =>
      r <- parse_token tok rest a ;;
      let '(a', used_next) := r in
      if used_next then
        match rest with
        | [] => ret a'
        | _ :: rest' => parse_loop rest' a'
        end
      else parse_loop rest a'
  end.

(** [inputFile === null], line 157. *)
Definition is_null (v : value) : bool :=
  match v with null => true | _ => false end.

Definition usage : M unit :=
  log ("USAGE:" +:+ LF +:+ LF +:+ "openjscad [-v] <file> [-of <format>] [-o <output>]") ;;;
  log (TAB +:+ "<file>  :" +:+ TAB +:+ "input file (Supported types: .jscad, .js, .scad, .stl, .amf, .obj, .gcode, .svg, .json)") ;;;
  log (TAB +:+ "<output>:" +:+ TAB +:+ "output file (Supported types: .jscad, .stl, .amf, .dxf, .svg, .json)") ;;;
  log (TAB +:+ "<format>:" +:+ TAB +:+ "'jscad', 'stla' (STL ASCII, default), 'stlb' (STL Binary), 'amf', 'dxf', 'svg', 'json'").

Definition parseArgs (args : list string) : M Args :=
  match args with
  | [] => usage ;;; fail ExitUsage
  | _ =>
      a <- parse_loop args initial ;;
      (* exit if a input file was not provided *)
      if is_null (inputFile a) then fail ExitNoInput
      else if negb (truthy (outputFormat a)) && negb (truthy (outputFile a)) then
        ret (set_outputFormat (str "stla") a)
      else ret a
  end.

(** ** determineOutputNameAndFormat, lines 171-189 *)

(** [!outputFormat && outputFile && outputFile.length], the guard shared
    by lines 172 and 174: the file name they look at, when it holds. *)
Definition named_file (outputFormat outputFile : value) : option string :=
  if negb (truthy outputFormat) && truthy outputFile then
    match outputFile with
    | str f => Some f
    | _ => None
    end
  else None.

(** [inputFile] is the variable of line 83, which the function reads at
    line 181; the result is the pair [{outputFormat, outputFile}]. *)
Definition determineOutputNameAndFormat
    (inputFile outputFormat outputFile : value) : M (value * value) :=
  match named_file outputFormat outputFile with
  | Some f =>
      match match_output_file f with
      | Some ext => ret (str ext, outputFile)              (* output filename set *)
      | None =>                                            (* output filename isn't valid *)
          log ("ERROR: invalid output file <" +:+ f +:+ ">") ;;;
          fail (ExitInvalidOutputFile f)
      end
  | None =>
      match outputFormat with
      | str fmt =>
          match match_output_format fmt with
          | Some ext =>                                    (* output format defined? *)
              if negb (truthy outputFile) then
                let ext := replace_stl_ab ext in
                match inputFile with
                | str inp => ret (outputFormat, str (replace_extension ext inp))
                | _ => fail ThrowTypeError
                end
              else ret (outputFormat, outputFile)
          | None =>
              log ("ERROR: invalid output format <" +:+ fmt) ;;;
              fail (ExitInvalidOutputFormat fmt)
          end
      | _ => fail ThrowTypeError
      end
  end.

(** ** writeOutputDataToFile, lines 191-201

    [fs.writeFile] calls back after the top level has run to its end; the
    call is the last statement of the program, so what the callback prints
    comes last in the trace. *)
Definition writeOutputDataToFile (outputFile : value) (outputData : option string)
    : M unit :=
  match outputData with
  | None => fail (ThrowFrom CallAsBuffer)
  | Some buffer =>
      emit (WriteFile outputFile) ;;;
      match writeFile K outputFile buffer with
      | None => fail (ThrowFrom CallWriteFile)
      | Some (Some err) => log ("err " +:+ err)
      | Some None => log "success"
      end
  end.

(** ** The top level, lines 83-102

    Each call of a collaborator is recorded in the trace when it is made;
    it then returns or throws as the collaborator says. *)
Definition cli (args : list string) : M unit :=
  a <- parseArgs args ;;
  match makeInputFormatHandlers K with
  | None => fail (ThrowFrom CallMakeInputFormatHandlers)
  | Some inputFormatHandlers =>
  out <- determineOutputNameAndFormat (inputFile a) (outputFormat a) (outputFile a) ;;
  let '(format, file) := out in
  log ("converting " +:+ display (inputFile a) +:+ " -> " +:+ display file +:+ " ("
         +:+ from_option id "undefined" (formatNames !! display format) +:+ ")") ;;;
  match inputFile a with
  | str inp =>
      emit (ReadFile inp (test_stl_file inp)) ;;;
      match readFileSync K inp (test_stl_file inp) with
      | None => fail (ThrowFrom CallReadInput)
      | Some src =>
      match inputFormatHandlers (display (inputFormat a)) with
      | None => fail ThrowTypeError
      | Some decode =>
      emit (Decode (inputFormat a)) ;;;
      match decode src inp file with
      | None => fail (ThrowFrom CallDecode)
      | Some src =>
      emit ReadHelpers ;;;
      match readHelpers K with
      | None => fail (ThrowFrom CallReadHelpers)
      | Some modelingHelpersAsData =>
      emit (Encode format) ;;;
      match generateOutputData K modelingHelpersAsData (gMainParam a) format src with
      | None => fail (ThrowFrom CallGenerateOutputData)
      | Some outputData => writeOutputDataToFile file outputData
      end end end end end
  | _ => fail ThrowTypeError
  end end.

End Program.

(** ** The vocabulary of the properties *)

(** The extension of a path: the characters after its last dot. *)
Fixpoint extension_of (s : string) : option string :=
  match s with
  | "" => None
  | String c t =>
      match extension_of t with
      | Some e => Some e
      | None => if Chars.is_dot c then Some t else None
      end
  end.

(** [a] occurs in [s], letter case aside. *)
Definition occurs_ci (a s : string) : Prop :=
  ∃ pre mid post, s = pre +:+ mid +:+ post ∧ Str.lower mid = a.

(** A string without a dot. *)
Definition dot_free (s : string) : Prop := Str.all Chars.non_dot s = true.

(** A bare token: none of the flag patterns of lines 127-139 applies, so the
    loop goes on to test it as an input file. *)
Definition bare (tok : string) : bool :=
  negb (Str.eqb tok "-of") && negb (test_dash_o_value tok) && negb (Str.eqb tok "-o")
  && negb (bool_decide (is_Some (match_param_assign tok)))
  && negb (bool_decide (is_Some (match_param_name tok))).

(** Where the loop index stands after a turn. *)
Definition advance (rest : list string) (used_next : bool) : list string :=
  if used_next then tail rest else rest.

(** [loop_reaches W args a tr args' a' tr']: started on the tokens [args]
    with the variables [a] and the trace [tr], the loop of [parseArgs]
    arrives, after some turns that all return, at the tokens [args'] with
    the variables [a'] and the trace [tr']. *)
Inductive loop_reaches (W : World) :
    list string → Args → list event → list string → Args → list event → Prop :=
  | reaches_here args a tr : loop_reaches W args a tr args a tr
  | reaches_turn tok rest a tr a1 used tr1 args' a' tr' :
      parse_token W tok rest a tr = (Returned (a1, used), tr1) →
      loop_reaches W (advance rest used) a1 tr1 args' a' tr' →
      loop_reaches W (tok :: rest) a tr args' a' tr'.

Definition is_console (e : event) : bool :=
  match e with ConsoleLog _ => true | _ => false end.

(** A trace of console lines only: no file is read or written, nothing is
    decoded or encoded. *)
Definition console_only (tr : list event) : Prop :=
  Forall (λ e, is_console e = true) tr.

Definition absent (v : value) : Prop := truthy v = false.
Definition present (v : value) : Prop := truthy v = true.

(** The path ends in a dot and one of [jscad], [js], [stl], [amf], [dxf],
    [svg]. *)
Definition known_output_extension (f : string) : Prop :=
  ∃ e, extension_of f = Some e ∧ e ∈ output_extensions.

(** The string is one of [jscad], [js], [stl], [stla], [stlb], [amf], [dxf],
    [svg], letter case aside. *)
Definition is_format_token (s : string) : Prop := Str.lower s ∈ output_formats.

(** When resolution fails with InvalidOutputError according to C1: (a) there
    is no override, there is an output path and its extension is unknown, or
    (b) there is an override and it is not a format token. *)
Definition invalid_output_as_specified (fmt out : value) : Prop :=
  (absent fmt ∧ ∃ f, out = str f ∧ f ≠ "" ∧ ¬ known_output_extension f)
  ∨ (∃ s, fmt = str s ∧ s ≠ "" ∧ ¬ is_format_token s).

(** The format a resolution settles on, whatever the path. *)
Definition resolved_format (o : outcome (value * value)) : outcome value :=
  match o with
  | Returned (format, _) => Returned format
  | Failed f => Failed f
  end.

(** An extension written with at least one capital letter that, put in
    lower case, is one of [alts]. *)
Definition case_variant (e : string) (alts : list string) : Prop :=
  Str.lower e ∈ alts ∧ e ≠ Str.lower e.

(** A file system in which every path is a regular file; both calls of the
    [-v] report return. *)
Definition every_path_a_file : World :=
  mkWorld (fun _ => Some true) (Some []) (Some "").

(** A file system that holds the regular file [model.jscad] and nothing
    else; both calls of the [-v] report return. *)
Definition only_model_jscad : World :=
  mkWorld (fun p => if Str.eqb p "model.jscad" then Some true else None)
          (Some ["OpenJSCAD"]) (Some "1").

(** The turns that return, one case for each branch of lines 127-149. *)
Inductive turn_returns (W : World) (tok : string) (rest : list string) (a : Args) (tr : list event) :
    Args → bool → list event → Prop :=
  | turn_of :
      tok = "-of" →
      turn_returns W tok rest a tr (set_outputFormat (next_arg rest) a) true tr
  | turn_o_joined :
      tok ≠ "-of" → test_dash_o_value tok = true →
      turn_returns W tok rest a tr (set_outputFile (str (replace_dash_o tok)) a) false tr
  | turn_o :
      tok = "-o" →
      turn_returns W tok rest a tr (set_outputFile (next_arg rest) a) true tr
  | turn_assign n v :
      match_param_assign tok = Some (n, v) →
      turn_returns W tok rest a tr (set_param n (str v) a) false tr
  | turn_name n :
      match_param_name tok = Some n →
      turn_returns W tok rest a tr (set_param n (next_arg rest) a) true tr
  | turn_input e :
      bare tok = true → match_input_file tok = Some e →
      statSync_isFile W tok = Some true →
      turn_returns W tok rest a tr
        (set_inputFormat (str e) (set_inputFile (str tok) a)) false tr
  | turn_v lines v :
      tok = "-v" → OpenJsCad_env W = Some lines → openscad_version W = Some v →
      turn_returns W tok rest a tr a false
        (tr ++ map ConsoleLog lines
            ++ [ConsoleLog ("OpenSCAD Compatibility (" +:+ v +:+ ")")])%list.

(** The turns that fail: only a bare token can stop the loop. *)
Inductive turn_fails (W : World) (tok : string) (tr : list event) : failure → list event → Prop :=
  | fails_not_a_file e :
      match_input_file tok = Some e → statSync_isFile W tok = Some false →
      turn_fails W tok tr (ExitCannotOpen tok)
        (tr ++ [ConsoleLog ("ERROR: cannot open file <" +:+ tok +:+ ">")])%list
  | fails_stat e :
      match_input_file tok = Some e → statSync_isFile W tok = None →
      turn_fails W tok tr (ThrowStat tok) tr
  | fails_env :
      tok = "-v" → OpenJsCad_env W = None →
      turn_fails W tok tr ThrowReport tr
  | fails_version lines :
      tok = "-v" → OpenJsCad_env W = Some lines → openscad_version W = None →
      turn_fails W tok tr ThrowReport (tr ++ map ConsoleLog lines)%list
  | fails_invalid :
      match_input_file tok = None → tok ≠ "-v" →
      turn_fails W tok tr (ExitInvalidArgument tok)
        (tr ++ [ConsoleLog ("ERROR: invalid file name or argument <" +:+ tok +:+ ">");
                ConsoleLog "Type 'openjscad' for help"])%list.

(** The file system of [only_model_jscad] for the program as this file has
    it: nothing binds [openscad], and evaluating it throws. *)
Definition openscad_unbound : World :=
  mkWorld (fun p => if Str.eqb p "model.jscad" then Some true else None)
          (Some ["OpenJSCAD"]) None.

(** Collaborators that all return: a table with a handler for [jscad] that
    passes the script on, empty files, and a write that succeeds. *)
Definition obliging : Collaborators :=
  mkCollaborators
    (Some (fun key => if Str.eqb key "jscad" then Some (fun src _ _ => Some src) else None))
    (fun _ _ => Some "") (Some "") (fun _ _ _ src => Some (Some src))
    (fun _ _ => Some None).

(** * The patterns on sample tokens *)

Example dash_o_joined :
  test_dash_o_value "-ofoo.stl" = true ∧ replace_dash_o "-ofoo.stl" = "foo.stl"
  ∧ test_dash_o_value "-oa" = false ∧ replace_dash_o "-oa b" = "-oa b".
Proof. by repeat split. Qed.

Example param_patterns :
  match_param_assign "--depth=3" = Some ("depth", "3")
  ∧ match_param_assign "--a=b=c" = Some ("a", "b=c")
  ∧ match_param_assign "--width" = None
  ∧ match_param_name "--width" = Some "width"
  ∧ match_param_name "--wi-dth" = None.
Proof. by repeat split. Qed.

Example input_file_pattern :
  match_input_file "model.jscad" = Some "jscad"
  ∧ match_input_file "MODEL.STL" = Some "STL"
  ∧ match_input_file "a.b.json" = Some "json"
  ∧ match_input_file ".stl" = None
  ∧ match_input_file "drawing.dxf" = None.
Proof. by repeat split. Qed.

Example output_file_pattern :
  match_output_file "out.stl" = Some "stl"
  ∧ match_output_file "out.jscad" = Some "jscad"
  ∧ match_output_file "OUT.STL" = None
  ∧ match_output_file "out.json" = None.
Proof. by repeat split. Qed.

Example output_format_pattern :
  match_output_format "stlb" = Some "stl"
  ∧ match_output_format "STLA" = Some "STL"
  ∧ match_output_format "amf" = Some "amf"
  ∧ match_output_format "x3d" = None.
Proof. by repeat split. Qed.

Example extension_replaced :
  replace_extension "stl" "model.jscad" = "model.stl"
  ∧ replace_extension "amf" "a.b.scad" = "a.b.amf"
  ∧ replace_extension "stl" "noext" = "noext"
  ∧ replace_stl_ab "stl" = "stl".
Proof. by repeat split. Qed.

(** * Facts about strings and the matching combinators *)

Module StrFacts.
Import Chars Str.

Lemma app_cons c a b : String c a +:+ b = String c (a +:+ b).
Proof. reflexivity. Qed.

Lemma app_nil_l a : "" +:+ a = a.
Proof. reflexivity. Qed.

Lemma app_nil_r a : a +:+ "" = a.
Proof. induction a as [|c a IH]; [done|]. by rewrite app_cons, IH. Qed.

Lemma app_assoc a b c : (a +:+ b) +:+ c = a +:+ (b +:+ c).
Proof. induction a as [|x a IH]; [done|]. by rewrite !app_cons, IH. Qed.

Lemma eqb_true a b : eqb a b = true ↔ a = b.
Proof. unfold eqb. apply bool_decide_eq_true. Qed.

Lemma eqb_false a b : eqb a b = false ↔ a ≠ b.
Proof. unfold eqb. apply bool_decide_eq_false. Qed.

Lemma eqb_refl a : eqb a a = true.
Proof. by apply eqb_true. Qed.

Lemma nonempty_true a : nonempty a = true ↔ a ≠ "".
Proof. destruct a; simpl; split; congruence. Qed.

Lemma all_app p a b : all p (a +:+ b) = all p a && all p b.
Proof.
  induction a as [|c a IH]; [done|].
  rewrite app_cons. simpl. rewrite IH. by rewrite andb_assoc.
Qed.

(** *** Case folding *)

Lemma to_lower_dot c : is_dot (to_lower c) = is_dot c.
Proof. destruct c as [[] [] [] [] [] [] [] []]; reflexivity. Qed.

Lemma is_dot_true c : is_dot c = true → c = "."%char.
Proof. destruct c as [[] [] [] [] [] [] [] []]; intros H; (discriminate H || reflexivity). Qed.

Lemma to_lower_idem c : to_lower (to_lower c) = to_lower c.
Proof. destruct c as [[] [] [] [] [] [] [] []]; reflexivity. Qed.

Lemma lower_app a b : lower (a +:+ b) = lower a +:+ lower b.
Proof.
  induction a as [|c a IH]; [done|].
  rewrite app_cons. simpl. by rewrite IH, app_cons.
Qed.

Lemma lower_idem a : lower (lower a) = lower a.
Proof. induction a as [|c a IH]; [done|]. simpl. by rewrite to_lower_idem, IH. Qed.

Lemma lower_length a : String.length (lower a) = String.length a.
Proof. induction a as [|c a IH]; [done|]. simpl. by rewrite IH. Qed.

Lemma lower_non_dot a : all non_dot (lower a) = all non_dot a.
Proof.
  induction a as [|c a IH]; [done|].
  simpl. unfold non_dot in *. by rewrite to_lower_dot, IH.
Qed.

(** *** Prefixes *)

Lemma take_length_app a b : take (String.length a) (a +:+ b) = a.
Proof. induction a as [|c a IH]; [by destruct b|]. rewrite app_cons. simpl. by rewrite IH. Qed.

Lemma take_length a : take (String.length a) a = a.
Proof. rewrite <- (app_nil_r a) at 2. apply take_length_app. Qed.

(** Every string splits into what [take] keeps and a remainder. *)
Lemma take_split n s : ∃ r, s = take n s +:+ r.
Proof.
  revert s. induction n as [|n IH]; intros s.
  - exists s. by destruct s.
  - destruct s as [|c s]; [by exists ""|].
    destruct (IH s) as [r Hr]. exists r. simpl. by rewrite app_cons, <- Hr.
Qed.

Lemma strip_prefix_app p s : strip_prefix p (p +:+ s) = Some s.
Proof.
  induction p as [|c p IH]; [done|].
  rewrite app_cons. simpl. by rewrite bool_decide_eq_true_2.
Qed.

(** *** Searching *)

Lemma search_Some {A} (m : string → option A) s r :
  search m s = Some r → ∃ pre t, s = pre +:+ t ∧ m t = Some r.
Proof.
  induction s as [|c s IH]; simpl.
  - destruct (m "") eqn:E; [|done]. intros [= <-]. by exists "", "".
  - destruct (m (String c s)) eqn:E.
    + intros [= <-]. by exists "", (String c s).
    + intros H. destruct (IH H) as (pre & t & -> & Ht).
      by exists (String c pre), t.
Qed.

Lemma search_hit {A} (m : string → option A) pre t :
  is_Some (m t) → is_Some (search m (pre +:+ t)).
Proof.
  intros Ht. induction pre as [|c pre IH].
  - rewrite app_nil_l. destruct t; simpl; destruct Ht as [r ->]; eauto.
  - rewrite app_cons. simpl.
    destruct (m (String c (pre +:+ t))); [eauto | exact IH].
Qed.

Lemma search_None {A} (m : string → option A) pre t :
  search m (pre +:+ t) = None → m t = None.
Proof.
  intros H. destruct (m t) eqn:E; [|done].
  destruct (search_hit m pre t) as [r Hr]; [by eauto|]. congruence.
Qed.

(** *** The greedy [.+] *)

Lemma dot_plus_then_Some {A} (k : string → option A) s r :
  dot_plus_then k s = Some r →
  ∃ u c v, s = u +:+ String c v ∧ any_char c = true ∧ k v = Some r.
Proof.
  induction s as [|c s IH]; simpl; [done|].
  destruct (any_char c) eqn:Hc; [|done].
  destruct (dot_plus_then k s) eqn:E.
  - intros [= <-]. destruct (IH eq_refl) as (u & c' & v & -> & Hc' & Hk).
    by exists (String c u), c', v.
  - intros Hk. by exists "", c, s.
Qed.

Lemma dot_plus_then_hit {A} (k : string → option A) c v :
  any_char c = true → is_Some (k v) → is_Some (dot_plus_then k (String c v)).
Proof.
  intros Hc [r Hr]. simpl. rewrite Hc. destruct (dot_plus_then k v); eauto.
Qed.

(** *** Alternations *)

Lemma alt_to_end_Some (ci : bool) (alts : list string) s r :
  alt_to_end ci alts s = Some r → r = s ∧ (if ci then lower s else s) ∈ alts.
Proof.
  induction alts as [|a alts IH]; simpl; [done|].
  destruct (eqb _ a) eqn:E.
  - intros [= <-]. apply eqb_true in E. split; [done|]. rewrite E. by left.
  - intros H. destruct (IH H) as [-> ?]. split; [done|]. by right.
Qed.

Lemma alt_to_end_hit (ci : bool) (alts : list string) s :
  (if ci then lower s else s) ∈ alts → alt_to_end ci alts s = Some s.
Proof.
  induction alts as [|a alts IH]; simpl; [by intros ?%elem_of_nil|].
  intros [->|H]%elem_of_cons; [by rewrite eqb_refl|].
  destruct (eqb _ a); [done|]. by apply IH.
Qed.

Lemma alt_prefix_ci_Some (alts : list string) s r :
  alt_prefix_ci alts s = Some r →
  ∃ a, a ∈ alts ∧ r = take (String.length a) s ∧ lower r = a.
Proof.
  induction alts as [|a alts IH]; simpl; [done|].
  destruct (eqb _ a) eqn:E.
  - intros [= <-]. apply eqb_true in E. exists a. split; [by left|done].
  - intros H. destruct (IH H) as (b & ? & ? & ?). exists b. split; [by right|done].
Qed.

Lemma alt_prefix_ci_hit (alts : list string) a s :
  a ∈ alts → lower (take (String.length a) s) = a → is_Some (alt_prefix_ci alts s).
Proof.
  induction alts as [|b alts IH]; simpl; [by intros ?%elem_of_nil|].
  intros [->|H]%elem_of_cons Ha.
  - rewrite Ha, eqb_refl. eauto.
  - destruct (eqb _ b); eauto.
Qed.

End StrFacts.

Module RegexFacts.
Import Chars Str StrFacts.

Lemma extension_of_dot_free e : dot_free e → extension_of e = None.
Proof.
  unfold dot_free. induction e as [|c e IH]; [done|].
  simpl. intros [Hc He]%andb_true_iff. rewrite (IH He).
  unfold non_dot in Hc. by destruct (is_dot c).
Qed.

Lemma extension_of_app pre e :
  dot_free e → extension_of (pre +:+ "." +:+ e) = Some e.
Proof.
  intros He. induction pre as [|c pre IH].
  - rewrite app_nil_l, app_cons, app_nil_l. simpl.
    by rewrite (extension_of_dot_free e He).
  - rewrite app_cons. simpl. by rewrite IH.
Qed.

Lemma extension_of_Some s e :
  extension_of s = Some e → ∃ pre, s = pre +:+ "." +:+ e ∧ dot_free e.
Proof.
  revert e. induction s as [|c s IH]; intros e; simpl; [done|].
  destruct (extension_of s) as [e'|] eqn:E.
  - intros [= <-]. destruct (IH e' eq_refl) as (pre & -> & He).
    by exists (String c pre).
  - destruct (is_dot c) eqn:Hc; [|done]. intros [= <-].
    exists "". split.
    + by rewrite (is_dot_true c Hc).
    + clear IH Hc. unfold dot_free. induction s as [|d s IH]; [done|].
      simpl in E. destruct (extension_of s); [done|].
      simpl. unfold non_dot at 1. destruct (is_dot d); [done|]. by apply IH.
Qed.

Lemma lower_in_dot_free (alts : list string) e :
  Forall dot_free alts → lower e ∈ alts → dot_free e.
Proof.
  intros Hall He. unfold dot_free. rewrite <- lower_non_dot.
  by apply (proj1 (Forall_forall _ _) Hall).
Qed.

Lemma in_dot_free (alts : list string) e :
  Forall dot_free alts → e ∈ alts → dot_free e.
Proof. intros Hall He. by apply (proj1 (Forall_forall _ _) Hall). Qed.

Lemma input_extensions_dot_free : Forall dot_free input_extensions.
Proof. repeat constructor. Qed.

Lemma output_extensions_dot_free : Forall dot_free output_extensions.
Proof. repeat constructor. Qed.

Lemma dot_alt_to_end_Some (ci : bool) (alts : list string) t r :
  dot_alt_to_end ci alts t = Some r →
  t = "." +:+ r ∧ (if ci then lower r else r) ∈ alts.
Proof.
  destruct t as [|c t]; simpl; [done|].
  destruct (is_dot c) eqn:Hc; [|done].
  intros [-> ?]%alt_to_end_Some. split; [|done].
  by rewrite (is_dot_true c Hc).
Qed.

Lemma dot_alt_to_end_hit (ci : bool) (alts : list string) e :
  (if ci then lower e else e) ∈ alts →
  dot_alt_to_end ci alts ("." +:+ e) = Some e.
Proof. intros H. rewrite app_cons, app_nil_l. simpl. by apply alt_to_end_hit. Qed.

(** *** The output file pattern finds the extension of the path *)

Lemma match_output_file_sound f e :
  match_output_file f = Some e → extension_of f = Some e ∧ e ∈ output_extensions.
Proof.
  unfold match_output_file.
  intros (pre & t & -> & [-> He]%dot_alt_to_end_Some)%search_Some.
  split; [|done]. apply extension_of_app.
  by apply (in_dot_free output_extensions), He; apply output_extensions_dot_free.
Qed.

Lemma match_output_file_complete f e :
  extension_of f = Some e → e ∈ output_extensions → match_output_file f = Some e.
Proof.
  intros Hf He. destruct (extension_of_Some _ _ Hf) as (pre & -> & _).
  destruct (search_hit (dot_alt_to_end false output_extensions) pre ("." +:+ e))
    as [e' He'].
  { rewrite dot_alt_to_end_hit; eauto. }
  fold (match_output_file (pre +:+ "." +:+ e)) in He'.
  destruct (match_output_file_sound _ _ He') as [Hf' _]. congruence.
Qed.

Lemma match_output_file_None f :
  match_output_file f = None ↔
  ¬ ∃ e, extension_of f = Some e ∧ e ∈ output_extensions.
Proof.
  split.
  - intros Hn (e & Hf & He). rewrite (match_output_file_complete f e Hf He) in Hn. done.
  - intros Hn. destruct (match_output_file f) as [e|] eqn:E; [|done].
    destruct Hn. exists e. by apply match_output_file_sound.
Qed.

(** *** The input file pattern: a character, a dot, a known extension *)

Lemma match_input_file_sound s e :
  match_input_file s = Some e →
  ∃ pre c, s = pre +:+ String c ("." +:+ e) ∧ any_char c = true
           ∧ lower e ∈ input_extensions.
Proof.
  unfold match_input_file.
  intros (pre & t & -> & Ht)%search_Some.
  apply dot_plus_then_Some in Ht as (u & c & v & -> & Hc & [-> He]%dot_alt_to_end_Some).
  exists (pre +:+ u), c. by rewrite app_assoc.
Qed.

Lemma extension_of_input pre c e :
  lower e ∈ input_extensions →
  extension_of (pre +:+ String c ("." +:+ e)) = Some e.
Proof.
  intros He.
  replace (pre +:+ String c ("." +:+ e)) with ((pre +:+ String c "") +:+ "." +:+ e)
    by (by rewrite app_assoc).
  apply extension_of_app, (lower_in_dot_free input_extensions), He.
  apply input_extensions_dot_free.
Qed.

Lemma match_input_file_complete pre c e :
  any_char c = true → lower e ∈ input_extensions →
  match_input_file (pre +:+ String c ("." +:+ e)) = Some e.
Proof.
  intros Hc He.
  destruct (search_hit (dot_plus_then (dot_alt_to_end true input_extensions))
              pre (String c ("." +:+ e))) as [e' He'].
  { apply dot_plus_then_hit; [done|]. rewrite dot_alt_to_end_hit; eauto. }
  fold (match_input_file (pre +:+ String c ("." +:+ e))) in He'.
  rewrite He'. f_equal.
  destruct (match_input_file_sound _ _ He') as (pre' & c' & Heq & _ & He'').
  pose proof (extension_of_input pre c e He) as H1.
  rewrite Heq in H1. rewrite (extension_of_input pre' c' e' He'') in H1.
  congruence.
Qed.

(** *** The output format pattern looks for a token anywhere *)

Lemma match_output_format_token s :
  lower s ∈ output_formats → is_Some (match_output_format s).
Proof.
  intros Hs. unfold match_output_format.
  apply (search_hit _ "" s), (alt_prefix_ci_hit _ (lower s)); [done|].
  by rewrite lower_length, take_length.
Qed.

Lemma match_output_format_occurs s r :
  match_output_format s = Some r →
  ∃ a, a ∈ output_formats ∧ occurs_ci a s.
Proof.
  unfold match_output_format.
  intros (pre & t & -> & (a & Ha & -> & Hl)%alt_prefix_ci_Some)%search_Some.
  exists a. split; [done|].
  destruct (take_split (String.length a) t) as [post Hpost].
  exists pre, (take (String.length a) t), post. by rewrite <- Hpost.
Qed.

Lemma match_output_format_None s :
  (∀ a, a ∈ output_formats → ¬ occurs_ci a s) → match_output_format s = None.
Proof.
  intros Hn. destruct (match_output_format s) as [r|] eqn:E; [|done].
  destruct (match_output_format_occurs _ _ E) as (a & Ha & Hocc).
  by destruct (Hn a Ha).
Qed.

(** *** Replacing the extension *)

Lemma replace_extension_app x stem e :
  e ≠ "" → dot_free e →
  replace_extension x (stem +:+ "." +:+ e) = stem +:+ "." +:+ x.
Proof.
  intros Hne He. induction stem as [|c stem IH].
  - rewrite !app_nil_l, app_cons, app_nil_l. simpl.
    apply nonempty_true in Hne. rewrite Hne, He. done.
  - rewrite !(app_cons c stem). simpl. rewrite IH, all_app.
    change ("." +:+ e) with (String "." e). simpl.
    by rewrite !andb_false_r.
Qed.

End RegexFacts.

(** * Facts about the parser *)

Module ParserFacts.
Import Chars Str StrFacts RegexFacts.

Section ParserWorld.
Variable W : World.

Lemma parse_loop_cons tok rest a tr :
  parse_loop W (tok :: rest) a tr =
  match parse_token W tok rest a tr with
  | (Returned (a', used), tr') => parse_loop W (advance rest used) a' tr'
  | (Failed f, tr') => (Failed f, tr')
  end.
Proof.
  simpl. unfold bind.
  destruct (parse_token W tok rest a tr) as [[[a' used]|f] tr']; [|done].
  by destruct used, rest.
Qed.

Lemma loop_reaches_run args a tr args' a' tr' :
  loop_reaches W args a tr args' a' tr' →
  parse_loop W args a tr = parse_loop W args' a' tr'.
Proof.
  induction 1 as [|tok rest a tr a1 used tr1 args' a' tr' Htok _ IH]; [done|].
  by rewrite parse_loop_cons, Htok.
Qed.

(** What becomes of a bare token. *)
Lemma parse_token_bare tok rest a :
  bare tok = true →
  parse_token W tok rest a =
  match match_input_file tok with
  | Some ext =>
      match statSync_isFile W tok with
      | None => fail (ThrowStat tok)
      | Some false =>
          log ("ERROR: cannot open file <" +:+ tok +:+ ">") ;;;
          fail (ExitCannotOpen tok)
      | Some true =>
          ret (set_inputFormat (str ext) (set_inputFile (str tok) a), false)
      end
  | None =>
      if test_dash_v tok then
        match OpenJsCad_env W with
        | None => fail ThrowReport
        | Some lines =>
            log_lines lines ;;;
            match openscad_version W with
            | None => fail ThrowReport
            | Some v =>
                log ("OpenSCAD Compatibility (" +:+ v +:+ ")") ;;;
                ret (a, false)
            end
        end
      else
        log ("ERROR: invalid file name or argument <" +:+ tok +:+ ">") ;;;
        log "Type 'openjscad' for help" ;;;
        fail (ExitInvalidArgument tok)
  end.
Proof.
  unfold bare, parse_token.
  intros H.
  apply andb_true_iff in H as [H H5]. apply andb_true_iff in H as [H H4].
  apply andb_true_iff in H as [H H3]. apply andb_true_iff in H as [H1 H2].
  apply negb_true_iff in H1, H2, H3, H4, H5.
  rewrite H1, H2, H3.
  apply bool_decide_eq_false in H4, H5.
  destruct (match_param_assign tok) as [[? ?]|]; [by destruct H4|].
  destruct (match_param_name tok); [by destruct H5|].
  done.
Qed.

Lemma parse_token_input_file tok rest a ext :
  bare tok = true → match_input_file tok = Some ext →
  statSync_isFile W tok = Some true →
  parse_token W tok rest a =
  ret (set_inputFormat (str ext) (set_inputFile (str tok) a), false).
Proof. intros Hb Hm Hs. by rewrite (parse_token_bare tok rest a Hb), Hm, Hs. Qed.

Lemma parse_token_missing_file tok rest a ext tr :
  bare tok = true → match_input_file tok = Some ext →
  statSync_isFile W tok ≠ Some true →
  ∃ f tr', parse_token W tok rest a tr = (Failed f, tr')
           ∧ classify f = FileNotFoundError
           ∧ (tr' = tr ∨ ∃ line, tr' = (tr ++ [ConsoleLog line])%list).
Proof.
  intros Hb Hm Hs. rewrite (parse_token_bare tok rest a Hb), Hm.
  destruct (statSync_isFile W tok) as [[|]|]; [done| |].
  - exists (ExitCannotOpen tok), (tr ++ [ConsoleLog ("ERROR: cannot open file <" +:+ tok +:+ ">")])%list.
    split; [done|]. split; [done|]. right. eauto.
  - exists (ThrowStat tok), tr. split; [done|]. split; [done|]. by left.
Qed.

End ParserWorld.

(** A token that does not begin with a dash is bare. *)
Lemma bare_no_dash c s : c ≠ "-"%char → bare (String c s) = true.
Proof.
  intros Hc. unfold bare, test_dash_o_value, match_param_assign, match_param_name.
  assert (∀ p, strip_prefix (String "-" p) (String c s) = None) as Hp.
  { intros p. simpl. by rewrite bool_decide_eq_false_2. }
  rewrite !Hp.
  assert (eqb (String c s) "-of" = false) as -> by (apply eqb_false; congruence).
  assert (eqb (String c s) "-o" = false) as -> by (apply eqb_false; congruence).
  reflexivity.
Qed.

End ParserFacts.

(** * Facts about the output resolver *)

Module ResolverFacts.
Import Chars Str StrFacts RegexFacts.

Lemma present_str v : present v → ∃ s, v = str s ∧ s ≠ "".
Proof.
  destruct v as [| |s]; try done. intros H%nonempty_true. by exists s.
Qed.

Lemma present_not_absent v : present v → ¬ absent v.
Proof. unfold present, absent. congruence. Qed.

Lemma named_file_Some fmt f :
  absent fmt → f ≠ "" → named_file fmt (str f) = Some f.
Proof.
  unfold absent, named_file. intros -> Hf%nonempty_true. simpl. by rewrite Hf.
Qed.

Lemma named_file_override fmt out : present fmt → named_file fmt out = None.
Proof. unfold present, named_file. by intros ->. Qed.

Lemma named_file_unnamed fmt out : absent out → named_file fmt out = None.
Proof. unfold absent, named_file. intros ->. by rewrite andb_false_r. Qed.

(** No override, a file name: line 172 or line 174. *)
Lemma resolve_named inp fmt f :
  absent fmt → f ≠ "" →
  result (determineOutputNameAndFormat inp fmt (str f)) =
  match match_output_file f with
  | Some e => Returned (str e, str f)
  | None => Failed (ExitInvalidOutputFile f)
  end.
Proof.
  intros Hfmt Hf. unfold result, run, determineOutputNameAndFormat.
  rewrite (named_file_Some fmt f Hfmt Hf).
  by destruct (match_output_file f).
Qed.

(** An override, or neither a usable override nor a file name: line 177. *)
Lemma resolve_override inp s out :
  present (str s) ∨ absent out →
  result (determineOutputNameAndFormat inp (str s) out) =
  match match_output_format s with
  | Some ext =>
      if truthy out then Returned (str s, out)
      else match inp with
           | str i => Returned (str s, str (replace_extension (replace_stl_ab ext) i))
           | _ => Failed ThrowTypeError
           end
  | None => Failed (ExitInvalidOutputFormat s)
  end.
Proof.
  intros H. unfold result, run, determineOutputNameAndFormat.
  assert (named_file (str s) out = None) as ->.
  { destruct H; [by apply named_file_override | by apply named_file_unnamed]. }
  destruct (match_output_format s); [|done].
  destruct (truthy out); [done|]. by destruct inp.
Qed.

Lemma resolve_failure inp fmt out f :
  result (determineOutputNameAndFormat inp fmt out) = Failed f →
  (∃ p, f = ExitInvalidOutputFile p ∧ absent fmt ∧ out = str p ∧ p ≠ ""
        ∧ match_output_file p = None)
  ∨ (∃ s, f = ExitInvalidOutputFormat s ∧ fmt = str s ∧ match_output_format s = None)
  ∨ f = ThrowTypeError.
Proof.
  unfold result, run, determineOutputNameAndFormat, named_file.
  destruct (truthy fmt) eqn:Hfmt, (truthy out) eqn:Hout; simpl.
  - destruct fmt as [| |s]; try done.
    destruct (match_output_format s) eqn:E; [done|]. intros [= <-]. right; left. eauto.
  - destruct fmt as [| |s]; try done.
    destruct (match_output_format s) eqn:E; simpl.
    + destruct inp; simpl; try done; intros [= <-]; by right; right.
    + intros [= <-]. right; left. eauto.
  - destruct out as [| |p]; try done.
    destruct (match_output_file p) eqn:E; [done|]. intros [= <-]. left.
    exists p. repeat split; try done. by apply nonempty_true.
  - destruct fmt as [| |s]; simpl; try (intros [= <-]; by right; right).
    destruct (match_output_format s) eqn:E; simpl.
    + destruct inp; simpl; try done; intros [= <-]; by right; right.
    + intros [= <-]. right; left. eauto.
Qed.

Lemma format_token_nonempty s : is_format_token s → s ≠ "".
Proof.
  intros H ->. unfold is_format_token in H. simpl in H.
  by repeat (apply elem_of_cons in H as [H|H]; [discriminate H|]);
    apply elem_of_nil in H.
Qed.

Lemma output_extensions_lower e : e ∈ output_extensions → lower e = e.
Proof.
  intros H.
  by repeat (apply elem_of_cons in H as [->|H]; [reflexivity|]);
    apply elem_of_nil in H.
Qed.

End ResolverFacts.

(** * The properties of the output resolver *)

Import Chars Str StrFacts RegexFacts ParserFacts ResolverFacts.

(** C1 fails on the code.  The override [json] is not one of the eight
    format tokens, so the specification has resolution fail on it; yet the
    pattern of line 177, which lacks the anchors that the pattern of
    line 172 has, finds [js] inside it: resolution returns, with the path
    [model.js] when it makes one up and with any output path that is given.
    The same holds of every override in which a token merely occurs. *)
Theorem json_override_accepted :
  ¬ is_format_token "json"
  ∧ invalid_output_as_specified (str "json") undefined
  ∧ result (determineOutputNameAndFormat (str "model.jscad") (str "json") undefined)
    = Returned (str "json", str "model.js")
  ∧ (∀ inp s out a,
       a ∈ output_formats → occurs_ci a s → present out →
       result (determineOutputNameAndFormat inp (str s) out) = Returned (str s, out)).
Proof.
  assert (¬ is_format_token "json") as Hn.
  { unfold is_format_token. simpl. intros Hin.
    by repeat (apply elem_of_cons in Hin as [Hin|Hin]; [discriminate Hin|]);
      apply elem_of_nil in Hin. }
  split; [done|]. split; [|split; [done|]].
  - right. by exists "json".
  - intros inp s out a Ha (pre & mid & post & -> & Hmid) Hout.
    assert (is_Some (match_output_format (pre +:+ mid +:+ post))) as [ext Hm].
    { apply search_hit, (alt_prefix_ci_hit _ a); [done|].
      by rewrite <- Hmid, lower_length, take_length_app. }
    assert (pre +:+ mid +:+ post ≠ "") as Hne by (intros Heq; by rewrite Heq in Hm).
    rewrite resolve_override by (left; by apply nonempty_true).
    rewrite Hm. unfold present in Hout. by rewrite Hout.
Qed.

(** C3.  With the override [stla] or [stlb] and no output path, the output
    path is the input path with its extension replaced by [stl], and the
    format that is returned is still the override: the choice between the
    ASCII and the binary encoder is kept. *)
Theorem stl_variant_output (stem e fmt : string) (out : value) :
  fmt = "stla" ∨ fmt = "stlb" → absent out → e ≠ "" → dot_free e →
  result (determineOutputNameAndFormat (str (stem +:+ "." +:+ e)) (str fmt) out)
  = Returned (str fmt, str (stem +:+ ".stl")).
Proof.
  intros Hfmt Hout He Hdot. rewrite resolve_override by (by right).
  unfold absent in Hout. rewrite Hout.
  assert (match_output_format fmt = Some "stl") as ->
    by (by destruct Hfmt as [-> | ->]).
  change (replace_stl_ab "stl") with "stl".
  by rewrite replace_extension_app.
Qed.

Lemma stl_variant_output_witness :
  result (determineOutputNameAndFormat (str "model.jscad") (str "stlb") undefined)
  = Returned (str "stlb", str "model.stl").
Proof.
  apply (stl_variant_output "model" "jscad" "stlb" undefined);
    [by right | reflexivity | discriminate | reflexivity].
Defined.

(** C6.  With an override and an output path both given, the format that is
    resolved is the override, whatever the extension of the output path: a
    resolution that returns, returns the override and the path as given; it
    returns for every format token; and it comes out the same for any other
    output path.  The extension of the output path decides only when there
    is no override. *)
Theorem override_wins (inp : value) (s : string) (out : value) :
  s ≠ "" → present out →
  let r := result (determineOutputNameAndFormat inp (str s) out) in
  (∀ res, r = Returned res → res = (str s, out))
  ∧ (is_format_token s → r = Returned (str s, out))
  ∧ (∀ out', present out' →
       resolved_format (result (determineOutputNameAndFormat inp (str s) out'))
       = resolved_format r)
  ∧ (∀ fmt f e, absent fmt → extension_of f = Some e → e ∈ output_extensions →
       result (determineOutputNameAndFormat inp fmt (str f)) = Returned (str e, str f)).
Proof.
  intros Hs Hout r. subst r.
  assert (present (str s)) as Hp by (by apply nonempty_true).
  rewrite resolve_override by (by left).
  unfold present in Hout. rewrite Hout.
  split; [|split; [|split]].
  - intros res. destruct (match_output_format s); [|done]. by intros [= <-].
  - intros Htok. by destruct (match_output_format_token s Htok) as [ext ->].
  - intros out' Hout'. rewrite resolve_override by (by left).
    unfold present in Hout'. rewrite Hout'. by destruct (match_output_format s).
  - intros fmt f e Hfmt Hf He.
    assert (f ≠ "") as Hne by (intros ->; discriminate Hf).
    by rewrite (resolve_named inp fmt f Hfmt Hne), (match_output_file_complete f e Hf He).
Qed.

Lemma override_wins_witness :
  result (determineOutputNameAndFormat (str "model.jscad") (str "amf") (str "out.stl"))
  = Returned (str "amf", str "out.stl").
Proof.
  refine (proj1 (proj2 (override_wins (str "model.jscad") "amf" (str "out.stl") _ _)) _).
  - discriminate.
  - reflexivity.
  - unfold is_format_token. simpl. set_solver.
Defined.

(** C10 does not hold of the code for [dxf], which is an output extension
    but not an input extension: [OUT.DXF] is refused as an output path, and
    as an input token it is refused as well. *)
Lemma upper_dxf_not_an_input :
  case_variant "DXF" output_extensions
  ∧ fails_with InvalidOutputError
      (result (determineOutputNameAndFormat (str "model.jscad") undefined (str "OUT.DXF")))
  ∧ match_input_file "OUT.DXF" = None
  ∧ result (parseArgs every_path_a_file ["OUT.DXF"]) = Failed (ExitInvalidArgument "OUT.DXF").
Proof.
  split; [|split; [|split]]; try reflexivity.
  split; [|discriminate]. simpl. set_solver.
Qed.

(** C10, amended.  The output path is matched with the letter case as
    written: an output path whose extension is a capitalised variant of a
    supported output extension, given without an override, fails with
    InvalidOutputError.  The same extension on an input token is matched
    whatever its letter case when it is one of [jscad], [js], [stl], [amf],
    [svg]; [dxf] is no input extension in any letter case. *)
Theorem output_extension_case (inp fmt : value) (stem e : string) :
  absent fmt → case_variant e output_extensions →
  fails_with InvalidOutputError
    (result (determineOutputNameAndFormat inp fmt (str (stem +:+ "." +:+ e))))
  ∧ (lower e ≠ "dxf" →
     ∀ pre c, any_char c = true →
       match_input_file (pre +:+ String c ("." +:+ e)) = Some e
       ∧ ∀ W rest a, bare (pre +:+ String c ("." +:+ e)) = true →
           statSync_isFile W (pre +:+ String c ("." +:+ e)) = Some true →
           parse_token W (pre +:+ String c ("." +:+ e)) rest a
           = ret (set_inputFormat (str e)
                    (set_inputFile (str (pre +:+ String c ("." +:+ e))) a), false))
  ∧ (lower e = "dxf" → match_input_file (stem +:+ "." +:+ e) = None).
Proof.
  intros Hfmt [Hin Hcase].
  assert (dot_free e) as Hdot
    by (apply (lower_in_dot_free output_extensions), Hin; apply output_extensions_dot_free).
  split; [|split].
  - assert (stem +:+ "." +:+ e ≠ "") as Hne by (by destruct stem).
    rewrite (resolve_named inp fmt _ Hfmt Hne).
    destruct (match_output_file (stem +:+ "." +:+ e)) as [e'|] eqn:E; [|done].
    apply match_output_file_sound in E as [Hext He'].
    rewrite (extension_of_app stem e Hdot) in Hext. injection Hext as <-.
    destruct Hcase. symmetry. by apply output_extensions_lower.
  - intros Hdxf pre c Hc.
    assert (lower e ∈ input_extensions) as Hi.
    { unfold output_extensions in Hin. unfold input_extensions.
      repeat (apply elem_of_cons in Hin as [Hin|Hin]; [rewrite Hin; set_solver|]);
        try by apply elem_of_nil in Hin.
      all: try by destruct Hdxf. }
    pose proof (match_input_file_complete pre c e Hc Hi) as Hm.
    split; [done|]. intros W rest a Hb Hs.
    by apply parse_token_input_file.
  - intros Hdxf.
    destruct (match_input_file (stem +:+ "." +:+ e)) as [e'|] eqn:E; [|done].
    apply match_input_file_sound in E as (pre & c & Heq & _ & He').
    pose proof (extension_of_app stem e Hdot) as H1.
    rewrite Heq, (extension_of_input pre c e' He') in H1. injection H1 as ->.
    rewrite Hdxf in He'. unfold input_extensions in He'.
    by repeat (apply elem_of_cons in He' as [He'|He']; [discriminate He'|]);
      apply elem_of_nil in He'.
Qed.

Lemma output_extension_case_witness :
  fails_with InvalidOutputError
    (result (determineOutputNameAndFormat (str "model.jscad") undefined (str "OUT.STL")))
  ∧ match_input_file "MODEL.STL" = Some "STL".
Proof.
  assert (case_variant "STL" output_extensions) as Hv.
  { split; [|discriminate]. simpl. set_solver. }
  split.
  - exact (proj1 (output_extension_case (str "model.jscad") undefined "OUT" "STL"
                    eq_refl Hv)).
  - refine (proj1 (proj1 (proj2 (output_extension_case (str "model.jscad") undefined "OUT" "STL"
                    eq_refl Hv)) _ "MODE" "L"%char eq_refl)).
    discriminate.
Defined.

(** * The properties of the argument parser *)

Module LoopFacts.

Lemma span_all p s : all p s = true → span p s = (s, "").
Proof.
  induction s as [|c s IH]; [done|].
  simpl. intros [-> Hs]%andb_true_iff. by rewrite (IH Hs).
Qed.

Lemma log_lines_run lines tr :
  log_lines lines tr = (Returned tt, (tr ++ map ConsoleLog lines)%list).
Proof.
  revert tr. induction lines as [|l lines IH]; intros tr; simpl.
  - unfold ret. by rewrite List.app_nil_r.
  - unfold bind, log, emit. by rewrite IH, <- List.app_assoc.
Qed.

Lemma console_only_snoc tr line :
  console_only tr → console_only (tr ++ [ConsoleLog line])%list.
Proof. intros H. apply Forall_app. split; [done|]. by repeat constructor. Qed.

Lemma console_only_lines tr lines :
  console_only tr → console_only (tr ++ map ConsoleLog lines)%list.
Proof.
  intros H. apply Forall_app. split; [done|].
  induction lines; by constructor.
Qed.

Section LoopWorld.
Variable W : World.

(** A turn of the loop prints to the console and does nothing else. *)
Lemma parse_token_console tok rest a tr o tr' :
  parse_token W tok rest a tr = (o, tr') → console_only tr → console_only tr'.
Proof.
  unfold parse_token, ret, bind, fail, log, emit. intros H Htr.
  repeat case_match; simplify_eq; try done;
    repeat match goal with
    | H : log_lines _ _ = _ |- _ => rewrite log_lines_run in H; simplify_eq
    end;
    auto using console_only_snoc, console_only_lines.
Qed.

(** No turn stores [null] in [inputFile]. *)
Lemma parse_token_not_null tok rest a tr a' used tr' :
  parse_token W tok rest a tr = (Returned (a', used), tr') →
  is_null (inputFile a) = false → is_null (inputFile a') = false.
Proof.
  unfold parse_token, ret, bind, fail, log, emit. intros H Ha.
  repeat case_match; by simplify_eq.
Qed.

Lemma loop_reaches_console args a tr args' a' tr' :
  loop_reaches W args a tr args' a' tr' → console_only tr → console_only tr'.
Proof.
  induction 1 as [|tok rest a tr a1 used tr1 args' a' tr' Htok _ IH]; [done|].
  intros Htr. by apply IH, (parse_token_console _ _ _ _ _ _ Htok).
Qed.

Lemma advance_length rest used : (length (advance rest used) ≤ length rest)%nat.
Proof. destruct used, rest; simpl; lia. Qed.

Lemma parse_loop_not_null args a tr a' tr' :
  parse_loop W args a tr = (Returned a', tr') →
  is_null (inputFile a) = false → is_null (inputFile a') = false.
Proof.
  remember (length args) as n eqn:Hn.
  revert args a tr Hn.
  induction (lt_wf n) as [n _ IH]. intros [|tok rest] a tr -> Hrun Ha.
  - by injection Hrun as <- <-.
  - rewrite parse_loop_cons in Hrun.
    destruct (parse_token W tok rest a tr) as [[[a1 used]|f] tr1] eqn:Htok; [|done].
    eapply (IH (length (advance rest used))); [|done|exact Hrun|].
    + pose proof (advance_length rest used). simpl. lia.
    + by eapply parse_token_not_null.
Qed.

(** The loop has no way to the exit of line 157. *)
Lemma parse_loop_no_input_exit args a tr tr' :
  parse_loop W args a tr ≠ (Failed ExitNoInput, tr').
Proof.
  remember (length args) as n eqn:Hn.
  revert args a tr Hn.
  induction (lt_wf n) as [n _ IH]. intros [|tok rest] a tr ->; [done|].
  rewrite parse_loop_cons.
  destruct (parse_token W tok rest a tr) as [[[a1 used]|f] tr1] eqn:Htok.
  - apply (IH (length (advance rest used))); [|done].
    pose proof (advance_length rest used). simpl. lia.
  - intros [= -> ->].
    unfold parse_token, ret, bind, fail, log, emit in Htok.
    repeat case_match; simplify_eq;
      match goal with
      | H : log_lines _ _ = _ |- _ => rewrite log_lines_run in H; simplify_eq
      end.
Qed.

(** A loop that returns hands its variables to the lines after it, where
    the test of line 157 never holds. *)
Lemma parseArgs_returns tok rest a tr :
  parse_loop W (tok :: rest) initial [] = (Returned a, tr) →
  run (parseArgs W (tok :: rest)) =
  (Returned (if negb (truthy (outputFormat a)) && negb (truthy (outputFile a))
             then set_outputFormat (str "stla") a else a), tr).
Proof.
  intros Hrun. unfold run, parseArgs, bind. rewrite Hrun.
  rewrite (parse_loop_not_null _ _ _ _ _ Hrun eq_refl).
  by destruct (negb _ && negb _).
Qed.

Lemma parseArgs_fails tok rest f tr :
  parse_loop W (tok :: rest) initial [] = (Failed f, tr) →
  run (parseArgs W (tok :: rest)) = (Failed f, tr)
  ∧ ∀ K, run (cli W K (tok :: rest)) = (Failed f, tr).
Proof.
  intros Hrun.
  assert (run (parseArgs W (tok :: rest)) = (Failed f, tr)) as Hp.
  { unfold run, parseArgs, bind. by rewrite Hrun. }
  split; [done|]. intros K. unfold run, cli, bind. unfold run in Hp. by rewrite Hp.
Qed.

End LoopWorld.

End LoopFacts.

Import LoopFacts.

(** C2 fails on the code.  Without an input file the parser still returns:
    [-of amf], in which no token is an input file, yields a request whose
    [inputFile] is [undefined].  The test of line 157 compares [inputFile]
    with [null], a value the variable never holds, so the exit behind it is
    taken for no arguments at all. *)
Theorem parse_without_input_returns :
  (∀ W, result (parseArgs W ["-of"; "amf"])
        = Returned (mkArgs undefined undefined undefined (str "amf") ∅))
  ∧ (∀ W args, result (parseArgs W args) ≠ Failed ExitNoInput).
Proof.
  split; [done|].
  intros W [|tok rest]; [done|].
  unfold result.
  destruct (parse_loop W (tok :: rest) initial []) as [[a|f] tr] eqn:Hrun.
  - by rewrite (parseArgs_returns W tok rest a tr Hrun).
  - rewrite (proj1 (parseArgs_fails W tok rest f tr Hrun)). simpl.
    intros [= ->]. by apply parse_loop_no_input_exit in Hrun.
Qed.

(** C4.  For the single argument [model.jscad], naming a regular file, the
    parser fills in the override [stla], and resolution yields the output
    path [model.stl] with the format [stla]. *)
Theorem default_output W :
  statSync_isFile W "model.jscad" = Some true →
  result (parseArgs W ["model.jscad"])
  = Returned (mkArgs (str "model.jscad") (str "jscad") undefined (str "stla") ∅)
  ∧ result (a <- parseArgs W ["model.jscad"] ;;
            determineOutputNameAndFormat (inputFile a) (outputFormat a) (outputFile a))
    = Returned (str "stla", str "model.stl").
Proof.
  intros Hfile.
  assert (parse_loop W ["model.jscad"] initial []
          = (Returned (mkArgs (str "model.jscad") (str "jscad") undefined undefined ∅), []))
    as Hloop.
  { rewrite parse_loop_cons.
    by rewrite (parse_token_input_file W "model.jscad" [] initial "jscad" eq_refl eq_refl Hfile). }
  assert (run (parseArgs W ["model.jscad"])
          = (Returned (mkArgs (str "model.jscad") (str "jscad") undefined (str "stla") ∅), []))
    as Hp by (by rewrite (parseArgs_returns W _ _ _ _ Hloop)).
  split.
  - unfold result. by rewrite Hp.
  - unfold result, run, bind. unfold run in Hp. by rewrite Hp.
Qed.

Lemma default_output_witness :
  result (a <- parseArgs only_model_jscad ["model.jscad"] ;;
          determineOutputNameAndFormat (inputFile a) (outputFormat a) (outputFile a))
  = Returned (str "stla", str "model.stl").
Proof. exact (proj2 (default_output only_model_jscad eq_refl)). Defined.

(** C5 does not hold of the code: the extension is stored as the token
    spells it, and [MODEL.STL] yields the input format [STL], not [stl]. *)
Lemma upper_case_extension_kept :
  result (parseArgs every_path_a_file ["MODEL.STL"])
  = Returned (mkArgs (str "MODEL.STL") (str "STL") undefined (str "stla") ∅)
  ∧ str "STL" ≠ str (lower "STL").
Proof. split; [reflexivity | discriminate]. Qed.

(** C5, amended.  A bare token made of at least one character, a dot and a
    known input extension in any letter case, naming a regular file, sets
    [inputFile] to the token and [inputFormat] to the extension as the token
    spells it, without case conversion. *)
Theorem input_token_sets_file_and_format W (pre : string) (c : ascii) (e : string) :
  let tok := pre +:+ String c ("." +:+ e) in
  any_char c = true → lower e ∈ input_extensions →
  bare tok = true → statSync_isFile W tok = Some true →
  (∀ rest a tr,
     parse_token W tok rest a tr
     = (Returned (set_inputFormat (str e) (set_inputFile (str tok) a), false), tr))
  ∧ result (parseArgs W [tok])
    = Returned (mkArgs (str tok) (str e) undefined (str "stla") ∅).
Proof.
  intros tok Hc He Hb Hfile.
  pose proof (match_input_file_complete pre c e Hc He) as Hm. fold tok in Hm.
  assert (∀ rest a tr,
     parse_token W tok rest a tr
     = (Returned (set_inputFormat (str e) (set_inputFile (str tok) a), false), tr)) as Htok.
  { intros rest a tr. by rewrite (parse_token_input_file W tok rest a e Hb Hm Hfile). }
  split; [done|].
  assert (parse_loop W [tok] initial []
          = (Returned (mkArgs (str tok) (str e) undefined undefined ∅), [])) as Hloop.
  { by rewrite parse_loop_cons, Htok. }
  unfold result. by rewrite (parseArgs_returns W _ _ _ _ Hloop).
Qed.

Lemma input_token_sets_file_and_format_witness :
  result (parseArgs every_path_a_file ["MODEL.STL"])
  = Returned (mkArgs (str "MODEL.STL") (str "STL") undefined (str "stla") ∅).
Proof.
  refine (proj2 (input_token_sets_file_and_format every_path_a_file "MODE" "L"%char "STL"
                   eq_refl _ eq_refl eq_refl)).
  simpl. set_solver.
Defined.

(** C7.  When the loop arrives at an input file token whose path is not a
    regular file, the parser fails with FileNotFoundError: it prints that it
    cannot open the file and exits, or [fs.statSync] throws for the missing
    path.  The whole program stops there with the same failure, whatever its
    collaborators would do, and its trace holds console lines only: nothing
    is read, decoded, encoded or written, and no output is resolved. *)
Theorem missing_input_file_stops W K args tok rest a tr ext :
  loop_reaches W args initial [] (tok :: rest) a tr →
  bare tok = true → match_input_file tok = Some ext →
  statSync_isFile W tok ≠ Some true →
  ∃ f tr', run (parseArgs W args) = (Failed f, tr')
           ∧ (f = ExitCannotOpen tok ∨ f = ThrowStat tok)
           ∧ classify f = FileNotFoundError
           ∧ run (cli W K args) = (Failed f, tr')
           ∧ console_only tr'.
Proof.
  intros Hreach Hb Hm Hfile.
  pose proof (loop_reaches_console W _ _ _ _ _ _ Hreach (Forall_nil_2 _)) as Htr.
  pose proof (loop_reaches_run W _ _ _ _ _ _ Hreach) as Hrun.
  rewrite parse_loop_cons in Hrun.
  rewrite (parse_token_bare W tok rest a Hb), Hm in Hrun.
  assert (∃ t r, args = t :: r) as (t & r & ->).
  { inversion Hreach; eauto. }
  destruct (statSync_isFile W tok) as [[|]|] eqn:Hs; [done| |].
  - exists (ExitCannotOpen tok),
      (tr ++ [ConsoleLog ("ERROR: cannot open file <" +:+ tok +:+ ">")])%list.
    destruct (parseArgs_fails W t r _ _ Hrun) as [Hp Hc]. specialize (Hc K).
    repeat split; try done; [by left | by apply console_only_snoc].
  - exists (ThrowStat tok), tr.
    destruct (parseArgs_fails W t r _ _ Hrun) as [Hp Hc]. specialize (Hc K).
    repeat split; try done. by right.
Qed.

Lemma missing_input_file_stops_witness :
  ∃ f tr', run (parseArgs only_model_jscad ["-of"; "stl"; "missing.stl"]) = (Failed f, tr')
           ∧ (f = ExitCannotOpen "missing.stl" ∨ f = ThrowStat "missing.stl")
           ∧ classify f = FileNotFoundError
           ∧ run (cli only_model_jscad obliging ["-of"; "stl"; "missing.stl"]) = (Failed f, tr')
           ∧ console_only tr'.
Proof.
  apply (missing_input_file_stops only_model_jscad obliging ["-of"; "stl"; "missing.stl"]
           "missing.stl" [] (set_outputFormat (str "stl") initial) [] "stl").
  - eapply reaches_turn; [reflexivity | apply reaches_here].
  - reflexivity.
  - reflexivity.
  - discriminate.
Defined.

(** C8.  [--width 5 --depth=3] yields the named parameters [width = "5"] and
    [depth = "3"].  In the two-token form the token after [--name] is taken
    as the value whatever it looks like, and the loop goes on after it;
    [--name --other] stores [--other] under [name]. *)
Theorem named_parameters W :
  (∃ a, result (parseArgs W ["--width"; "5"; "--depth=3"]) = Returned a
        ∧ gMainParam a = <["width" := str "5"]> (<["depth" := str "3"]> ∅))
  ∧ (∀ name v rest a tr,
       name ≠ "" → all is_word_char name = true →
       parse_loop W (("--" +:+ name) :: v :: rest) a tr
       = parse_loop W rest (set_param name (str v) a) tr
       ∧ (name ≠ "__proto__" →
          gMainParam (set_param name (str v) a) !! name = Some (str v)))
  ∧ (∃ a, result (parseArgs W ["--name"; "--other"]) = Returned a
          ∧ gMainParam a = <["name" := str "--other"]> ∅).
Proof.
  split; [|split].
  - eexists. split; [reflexivity|]. by vm_compute.
  - intros name v rest a tr Hne Hw. split.
    + rewrite parse_loop_cons.
      assert (parse_token W ("--" +:+ name) (v :: rest) a
              = ret (set_param name (str v) a, true)) as ->; [|done].
      change ("--" +:+ name) with (String "-" (String "-" name)).
      unfold parse_token, test_dash_o_value, match_param_assign, match_param_name.
      assert (eqb (String "-" (String "-" name)) "-of" = false) as ->
        by (by apply eqb_false).
      assert (eqb (String "-" (String "-" name)) "-o" = false) as ->
        by (by apply eqb_false).
      simpl. rewrite (span_all _ _ Hw), Hw.
      apply nonempty_true in Hne. rewrite Hne. by destruct name.
    + intros Hp. unfold set_param, obj_set. simpl.
      rewrite bool_decide_eq_false_2 by done. apply lookup_insert_eq.
  - eexists. split; [reflexivity|]. by vm_compute.
Qed.

Lemma named_parameters_witness :
  parse_loop every_path_a_file ["--title"; "-o"; "model.jscad"] initial []
  = parse_loop every_path_a_file ["model.jscad"] (set_param "title" (str "-o") initial) [].
Proof.
  exact (proj1 (proj1 (proj2 (named_parameters every_path_a_file))
                  "title" "-o" ["model.jscad"] initial []
                  ltac:(discriminate) eq_refl)).
Defined.

(** C9 fails on the code.  Line 149 evaluates [openscad.version()], and the
    file binds no [openscad] (line 52 binds the module as
    [modelingHelpers]).  Where evaluating it throws, a [-v] token prints the
    environment report and the parser stops there on the exception: the loop
    does not go on, and [-v model.jscad] yields no request. *)
Theorem version_flag_stops W lines rest a tr :
  OpenJsCad_env W = Some lines → openscad_version W = None →
  parse_loop W ("-v" :: rest) a tr
  = (Failed ThrowReport, (tr ++ map ConsoleLog lines)%list)
  ∧ run (parseArgs W ["-v"; "model.jscad"])
    = (Failed ThrowReport, map ConsoleLog lines).
Proof.
  intros Henv Hver.
  assert (∀ rest a tr,
            parse_loop W ("-v" :: rest) a tr
            = (Failed ThrowReport, (tr ++ map ConsoleLog lines)%list)) as Hloop.
  { intros rest' a' tr'. rewrite parse_loop_cons.
    rewrite (parse_token_bare W "-v" rest' a' eq_refl).
    change (match_input_file "-v") with (@None string).
    change (test_dash_v "-v") with true. cbv beta iota.
    rewrite Henv, Hver. unfold bind, log, emit. by rewrite log_lines_run. }
  split; [done|].
  by rewrite (proj1 (parseArgs_fails W _ _ _ _ (Hloop ["model.jscad"] initial []))).
Qed.

Lemma version_flag_stops_witness :
  run (parseArgs openscad_unbound ["-v"; "model.jscad"])
  = (Failed ThrowReport, [ConsoleLog "OpenJSCAD"]).
Proof.
  exact (proj2 (version_flag_stops openscad_unbound ["OpenJSCAD"] [] initial []
                  eq_refl eq_refl)).
Defined.

(** * Further facts about the loop of the parser *)

Module TurnFacts.

Section TurnWorld.
Variable W : World.

Lemma bare_intro tok :
  eqb tok "-of" = false → test_dash_o_value tok = false → eqb tok "-o" = false →
  match_param_assign tok = None → match_param_name tok = None → bare tok = true.
Proof. unfold bare. by intros -> -> -> -> ->. Qed.

Lemma parse_token_returned tok rest a tr a1 used tr1 :
  parse_token W tok rest a tr = (Returned (a1, used), tr1) →
  turn_returns W tok rest a tr a1 used tr1.
Proof.
  unfold parse_token.
  destruct (eqb tok "-of") eqn:E1.
  { intros [= <- <- <-]. apply turn_of. by apply eqb_true. }
  destruct (test_dash_o_value tok) eqn:E2.
  { intros [= <- <- <-]. apply turn_o_joined; [by apply eqb_false|done]. }
  destruct (eqb tok "-o") eqn:E3.
  { intros [= <- <- <-]. apply turn_o. by apply eqb_true. }
  destruct (match_param_assign tok) as [[n v]|] eqn:E4.
  { intros [= <- <- <-]. by apply turn_assign. }
  destruct (match_param_name tok) as [n|] eqn:E5.
  { intros [= <- <- <-]. by apply turn_name. }
  pose proof (bare_intro tok E1 E2 E3 E4 E5) as Hb.
  destruct (match_input_file tok) as [e|] eqn:E6.
  { destruct (statSync_isFile W tok) as [[|]|] eqn:E7; [|done..].
    intros [= <- <- <-]. by apply (turn_input _ _ _ _ _ e). }
  destruct (test_dash_v tok) eqn:E7; [|done].
  destruct (OpenJsCad_env W) as [lines|] eqn:E8; [|done].
  unfold bind, log, emit. rewrite log_lines_run.
  destruct (openscad_version W) as [v|] eqn:E9; [|done].
  intros [= <- <- <-]. rewrite <- List.app_assoc.
  apply turn_v; [by apply eqb_true|done..].
Qed.

Lemma parse_token_failed tok rest a tr f tr1 :
  parse_token W tok rest a tr = (Failed f, tr1) →
  bare tok = true ∧ turn_fails W tok tr f tr1.
Proof.
  unfold parse_token.
  destruct (eqb tok "-of") eqn:E1; [done|].
  destruct (test_dash_o_value tok) eqn:E2; [done|].
  destruct (eqb tok "-o") eqn:E3; [done|].
  destruct (match_param_assign tok) as [[n v]|] eqn:E4; [done|].
  destruct (match_param_name tok) as [n|] eqn:E5; [done|].
  pose proof (bare_intro tok E1 E2 E3 E4 E5) as Hb.
  destruct (match_input_file tok) as [e|] eqn:E6.
  { destruct (statSync_isFile W tok) as [[|]|] eqn:E7; [done| |].
    - intros [= <- <-]. split; [done|]. by apply (fails_not_a_file _ _ _ e).
    - intros [= <- <-]. split; [done|]. by apply (fails_stat _ _ _ e). }
  destruct (test_dash_v tok) eqn:E7.
  - apply eqb_true in E7.
    destruct (OpenJsCad_env W) as [lines|] eqn:E8.
    + unfold bind, log, emit. rewrite log_lines_run.
      destruct (openscad_version W) as [v|] eqn:E9; [done|].
      intros [= <- <-]. split; [done|]. by apply fails_version.
    + intros [= <- <-]. split; [done|]. by apply fails_env.
  - apply eqb_false in E7. intros [= <- <-]. split; [done|].
    rewrite <- List.app_assoc. by apply fails_invalid.
Qed.

(** A failing loop stopped at some token it reached. *)
Lemma parse_loop_failed args a tr f tr' :
  parse_loop W args a tr = (Failed f, tr') →
  ∃ tok rest a1 tr1,
    loop_reaches W args a tr (tok :: rest) a1 tr1
    ∧ parse_token W tok rest a1 tr1 = (Failed f, tr').
Proof.
  remember (length args) as n eqn:Hn. revert args a tr Hn.
  induction (lt_wf n) as [n _ IH]. intros [|tok rest] a tr -> Hrun; [done|].
  rewrite parse_loop_cons in Hrun.
  destruct (parse_token W tok rest a tr) as [[[a1 used]|f1] tr1] eqn:Htok.
  - destruct (IH (length (advance rest used))) with (3 := Hrun)
      as (tok' & rest' & a2 & tr2 & Hreach & Hfail); [|done|].
    { pose proof (advance_length rest used). simpl. lia. }
    exists tok', rest', a2, tr2. split; [|done].
    by eapply reaches_turn.
  - injection Hrun as <- <-. exists tok, rest, a, tr. split; [apply reaches_here|done].
Qed.

(** A loop that returns went through all its tokens. *)
Lemma parse_loop_returned args a tr a' tr' :
  parse_loop W args a tr = (Returned a', tr') ↔ loop_reaches W args a tr [] a' tr'.
Proof.
  split.
  - remember (length args) as n eqn:Hn. revert args a tr Hn.
    induction (lt_wf n) as [n _ IH]. intros [|tok rest] a tr -> Hrun.
    + injection Hrun as <- <-. apply reaches_here.
    + rewrite parse_loop_cons in Hrun.
      destruct (parse_token W tok rest a tr) as [[[a1 used]|f1] tr1] eqn:Htok; [|done].
      eapply reaches_turn; [done|].
      eapply (IH (length (advance rest used))); [|done|done].
      pose proof (advance_length rest used). simpl. lia.
  - intros H. by rewrite (loop_reaches_run W _ _ _ _ _ _ H).
Qed.

(** Invariants of the loop: what every returning turn on a token of the
    argument list keeps, the loop keeps. *)
Lemma loop_reaches_invariant (I : Args → list event → Prop) (args0 : list string) :
  (∀ tok rest a tr a1 used tr1,
     tok ∈ args0 → turn_returns W tok rest a tr a1 used tr1 → I a tr → I a1 tr1) →
  ∀ args a tr args' a' tr',
    loop_reaches W args a tr args' a' tr' →
    args ⊆ args0 → I a tr → I a' tr' ∧ args' ⊆ args0.
Proof.
  intros Hstep args a tr args' a' tr' Hreach.
  induction Hreach as [|tok rest a tr a1 used tr1 args' a' tr' Htok _ IH]; [done|].
  intros Hsub HI. apply IH.
  - intros t Ht. apply Hsub. right.
    destruct used; [|done]. destruct rest; [done|]. by right.
  - eapply Hstep; [|by apply parse_token_returned|done].
    apply Hsub. by left.
Qed.

End TurnWorld.

End TurnFacts.

Import TurnFacts.

(** * Further facts about the patterns *)

Module PatternFacts.

Lemma occurs_ci_hit (alts : list string) a s :
  a ∈ alts → occurs_ci a s → is_Some (search (alt_prefix_ci alts) s).
Proof.
  intros Ha (pre & mid & post & -> & Hmid).
  apply search_hit, (alt_prefix_ci_hit _ a); [done|].
  by rewrite <- Hmid, lower_length, take_length_app.
Qed.

Lemma to_lower_inv c d :
  to_lower c = d → c = d ∨ c = ascii_of_N (code d - 32).
Proof.
  intros <-.
  destruct c as [[] [] [] [] [] [] [] []];
    first [by left | by right].
Qed.

Ltac found E :=
  apply eqb_true in E; intros Hx;
  match type of Hx with Some ?x = Some ?e => replace e with x by congruence end;
  rewrite E; set_solver.

(** At one position, [stl] is tried before [stla] and [stlb], so the group
    never holds one of the two longer tokens. *)
Lemma alt_prefix_ci_formats t ext :
  alt_prefix_ci output_formats t = Some ext → lower ext ∈ output_extensions.
Proof.
  assert (∀ a, lower (take 4 t) = String "s" (String "t" (String "l" a)) →
               lower (take 3 t) = "stl") as Hstl.
  { intros a Ha. destruct t as [|c1 [|c2 [|c3 t]]]; try discriminate Ha.
    simpl in Ha |- *. injection Ha as -> -> -> _. done. }
  unfold output_formats, output_extensions. cbn [alt_prefix_ci String.length].
  destruct (eqb (lower (take 5 t)) "jscad") eqn:E1.
  { found E1. }
  destruct (eqb (lower (take 2 t)) "js") eqn:E2.
  { found E2. }
  destruct (eqb (lower (take 3 t)) "stl") eqn:E3.
  { found E3. }
  apply eqb_false in E3.
  destruct (eqb (lower (take 4 t)) "stla") eqn:E4.
  { apply eqb_true in E4. by destruct E3, (Hstl "a"). }
  destruct (eqb (lower (take 4 t)) "stlb") eqn:E5.
  { apply eqb_true in E5. by destruct E3, (Hstl "b"). }
  destruct (eqb (lower (take 3 t)) "amf") eqn:E6.
  { found E6. }
  destruct (eqb (lower (take 3 t)) "dxf") eqn:E7.
  { found E7. }
  destruct (eqb (lower (take 3 t)) "svg") eqn:E8; [|done].
  found E8.
Qed.

Lemma match_output_format_capture s ext :
  match_output_format s = Some ext → lower ext ∈ output_extensions.
Proof.
  unfold match_output_format.
  intros (pre & t & -> & Ht)%search_Some. by eapply alt_prefix_ci_formats.
Qed.

Ltac case_variants :=
  repeat match goal with
  | H : String _ _ = String _ _ |- _ => injection H as ?
  | H : to_lower _ = _ |- _ => apply to_lower_inv in H as [-> | ->]
  end.

(** The replacement of line 180 finds nothing to replace in an extension. *)
Lemma replace_stl_ab_extension ext :
  lower ext ∈ output_extensions → replace_stl_ab ext = ext.
Proof.
  unfold output_extensions. intros H.
  repeat (apply elem_of_cons in H as [H|H]);
    [..|by apply elem_of_nil in H];
    repeat (destruct ext as [|? ext]; try discriminate H);
    simpl in H; case_variants; reflexivity.
Qed.

Lemma extension_is_format (e : string) :
  e ∈ output_extensions → e ∈ output_formats.
Proof.
  unfold output_extensions, output_formats. intros H.
  repeat (apply elem_of_cons in H as [->|H];
          [by repeat first [apply list_elem_of_here | apply list_elem_of_further]|]).
  by apply elem_of_nil in H.
Qed.

Lemma match_output_format_literal s ext :
  match_output_format s = Some ext → ∃ pre post, s = pre +:+ ext +:+ post.
Proof.
  unfold match_output_format.
  intros (pre & t & -> & (a & _ & -> & _)%alt_prefix_ci_Some)%search_Some.
  destruct (take_split (String.length a) t) as [post Hpost].
  exists pre, post. by rewrite <- Hpost.
Qed.

Lemma format_group_ok s ext :
  match_output_format s = Some ext →
  lower ext ∈ output_extensions ∧ replace_stl_ab ext = ext.
Proof.
  intros H. pose proof (match_output_format_capture s ext H) as He.
  split; [done|]. by apply replace_stl_ab_extension.
Qed.

End PatternFacts.

Import PatternFacts.

(** * Further facts about the parser and the resolver *)

Module StageFacts.

Lemma length_app a b : String.length (a +:+ b) = (String.length a + String.length b)%nat.
Proof. induction a as [|c a IH]; [done|]. rewrite app_cons. simpl. by rewrite IH. Qed.

Lemma span_stop p a c b :
  all p a = true → p c = false → span p (a +:+ String c b) = (a, String c b).
Proof.
  intros Ha Hc. induction a as [|x a IH].
  - rewrite app_nil_l. simpl. by rewrite Hc.
  - rewrite app_cons. simpl in Ha |- *.
    apply andb_true_iff in Ha as [-> Ha]. by rewrite (IH Ha).
Qed.

Lemma dot_free_no_input tok : dot_free tok → match_input_file tok = None.
Proof.
  intros Hd. destruct (match_input_file tok) as [e|] eqn:E; [|done].
  apply match_input_file_sound in E as (pre & c & -> & _ & _).
  unfold dot_free in Hd. rewrite all_app in Hd. simpl in Hd.
  change ("." +:+ e) with (String "." e) in Hd. simpl in Hd.
  by rewrite !andb_false_r in Hd.
Qed.

Lemma short_no_input tok : (String.length tok < 4)%nat → match_input_file tok = None.
Proof.
  intros Hlen. destruct (match_input_file tok) as [e|] eqn:E; [|done].
  apply match_input_file_sound in E as (pre & c & -> & _ & He).
  assert (2 ≤ String.length e)%nat as H2.
  { rewrite <- lower_length. unfold input_extensions in He.
    repeat (apply elem_of_cons in He as [He|He]; [rewrite He; simpl; lia|]).
    by apply elem_of_nil in He. }
  rewrite length_app in Hlen.
  change (String c ("." +:+ e)) with (String c (String "." e)) in Hlen.
  simpl in Hlen. lia.
Qed.

Lemma replace_extension_none x s :
  (∀ stem e, s = stem +:+ "." +:+ e → dot_free e → e = "") →
  replace_extension x s = s.
Proof.
  induction s as [|c s IH]; [done|]. intros H. simpl.
  destruct (is_dot c && nonempty s && all non_dot s) eqn:E.
  - apply andb_true_iff in E as [[Hc Hs]%andb_true_iff Hd].
    apply is_dot_true in Hc as ->.
    rewrite (H "" s eq_refl Hd) in Hs. discriminate Hs.
  - f_equal. apply IH. intros stem e -> He. by apply (H (String c stem) e).
Qed.

Section StageWorld.
Variable W : World.

(** The two ways out of [parseArgs] with a non-empty argument list. *)
Lemma parseArgs_returned_inv args a tr :
  run (parseArgs W args) = (Returned a, tr) →
  ∃ a0, parse_loop W args initial [] = (Returned a0, tr)
        ∧ a = (if negb (truthy (outputFormat a0)) && negb (truthy (outputFile a0))
               then set_outputFormat (str "stla") a0 else a0).
Proof.
  destruct args as [|tok rest]; [done|].
  destruct (parse_loop W (tok :: rest) initial []) as [[a0|f] tr0] eqn:Hrun.
  - rewrite (parseArgs_returns W _ _ _ _ Hrun). intros [= <- <-]. by exists a0.
  - by rewrite (proj1 (parseArgs_fails W _ _ _ _ Hrun)).
Qed.

Lemma parseArgs_failed_inv args f tr :
  run (parseArgs W args) = (Failed f, tr) →
  (args = [] ∧ f = ExitUsage)
  ∨ ∃ tok rest a1 tr1,
      loop_reaches W args initial [] (tok :: rest) a1 tr1
      ∧ bare tok = true ∧ turn_fails W tok tr1 f tr.
Proof.
  destruct args as [|tok rest].
  { intros [= <- <-]. by left. }
  destruct (parse_loop W (tok :: rest) initial []) as [[a0|f0] tr0] eqn:Hrun.
  - by rewrite (parseArgs_returns W _ _ _ _ Hrun).
  - rewrite (proj1 (parseArgs_fails W _ _ _ _ Hrun)). intros [= <- <-]. right.
    apply parse_loop_failed in Hrun as (t & r & a1 & tr1 & Hreach & Hfail).
    apply parse_token_failed in Hfail as [Hb Hf]. by exists t, r, a1, tr1.
Qed.

Lemma loop_reaches_nonempty args a tr tok rest a' tr' :
  loop_reaches W args a tr (tok :: rest) a' tr' → ∃ t r, args = t :: r.
Proof. inversion 1; eauto. Qed.

(** A failing turn that is reached fails the parser and the program. *)
Lemma reached_failure args tok rest a tr f tr' :
  loop_reaches W args initial [] (tok :: rest) a tr →
  parse_token W tok rest a tr = (Failed f, tr') →
  run (parseArgs W args) = (Failed f, tr')
  ∧ ∀ K, run (cli W K args) = (Failed f, tr').
Proof.
  intros Hreach Hfail.
  destruct (loop_reaches_nonempty _ _ _ _ _ _ _ Hreach) as (t & r & ->).
  apply parseArgs_fails.
  by rewrite (loop_reaches_run W _ _ _ _ _ _ Hreach), parse_loop_cons, Hfail.
Qed.

Lemma turn_fails_console tok tr f tr' :
  turn_fails W tok tr f tr' → console_only tr → console_only tr'.
Proof.
  intros [] Htr; try done.
  - by apply console_only_snoc.
  - by apply console_only_lines.
  - apply Forall_app. split; [done|]. by repeat constructor.
Qed.

Lemma parseArgs_console args o tr :
  run (parseArgs W args) = (o, tr) → console_only tr.
Proof.
  destruct args as [|t r].
  { intros [= <- <-]. by repeat constructor. }
  destruct o as [a|f].
  - intros (a0 & Hrun & _)%parseArgs_returned_inv.
    apply parse_loop_returned in Hrun.
    apply (loop_reaches_console W _ _ _ _ _ _ Hrun). constructor.
  - intros [[? _]|(tok & rest & a1 & tr1 & Hreach & _ & Hf)]%parseArgs_failed_inv; [done|].
    apply (turn_fails_console _ _ _ _ Hf).
    apply (loop_reaches_console W _ _ _ _ _ _ Hreach). constructor.
Qed.

End StageWorld.



(** On a format token in lower case the pattern finds the token with the
    last letter of [stla] and [stlb] dropped. *)
Lemma lower_token_group s :
  s ∈ output_formats →
  match_output_format s = Some (replace_stl_ab s)
  ∧ replace_stl_ab s ∈ output_extensions.
Proof.
  unfold output_formats. intros H.
  repeat (apply elem_of_cons in H as [->|H];
          [split; [reflexivity|];
           by repeat first [apply list_elem_of_here | apply list_elem_of_further]|]).
  by apply elem_of_nil in H.
Qed.

(** A path whose extension is spelled with a capital letter is no output
    path for the resolver. *)
Lemma capital_extension_refused inp fmt stem ext :
  absent fmt → lower ext ∈ output_extensions → ext ≠ lower ext →
  result (determineOutputNameAndFormat inp fmt (str (stem +:+ "." +:+ ext)))
  = Failed (ExitInvalidOutputFile (stem +:+ "." +:+ ext)).
Proof.
  intros Hfmt Hin Hcase.
  assert (dot_free ext) as Hdot
    by (apply (lower_in_dot_free output_extensions), Hin; apply output_extensions_dot_free).
  assert (stem +:+ "." +:+ ext ≠ "") as Hne by (by destruct stem).
  rewrite (resolve_named inp fmt _ Hfmt Hne).
  destruct (match_output_file (stem +:+ "." +:+ ext)) as [e'|] eqn:E; [|done].
  apply match_output_file_sound in E as [Hext He'].
  rewrite (extension_of_app stem ext Hdot) in Hext. injection Hext as <-.
  destruct Hcase. symmetry. by apply output_extensions_lower.
Qed.

End StageFacts.

Import StageFacts.

(** * More properties of the patterns *)

(** X1.  The input file pattern of line 140 matches exactly the tokens made
    of some text that ends in a character other than a line terminator, a
    dot, and one of the nine input extensions in any letter case; its group
    holds the extension as written. *)
Theorem input_pattern_spec (tok e : string) :
  match_input_file tok = Some e ↔
  ∃ pre c, tok = pre +:+ String c ("." +:+ e) ∧ any_char c = true
           ∧ lower e ∈ input_extensions.
Proof.
  split.
  - apply match_input_file_sound.
  - intros (pre & c & -> & Hc & He). by apply match_input_file_complete.
Qed.

(** X2.  The output file pattern of line 172 matches exactly the paths whose
    extension, the text after the last dot, is one of the six output
    extensions in lower case; its group holds that extension. *)
Theorem output_pattern_spec (f e : string) :
  match_output_file f = Some e ↔ extension_of f = Some e ∧ e ∈ output_extensions.
Proof.
  split.
  - apply match_output_file_sound.
  - intros [Hf He]. by apply match_output_file_complete.
Qed.

(** X3.  The output format pattern of line 177 is not anchored: it matches
    exactly the strings in which one of the eight format tokens occurs
    somewhere, in any letter case. *)
Theorem format_pattern_spec (s : string) :
  is_Some (match_output_format s) ↔ ∃ a, a ∈ output_formats ∧ occurs_ci a s.
Proof.
  split.
  - intros [r Hr]. by apply (match_output_format_occurs s r).
  - intros (a & Ha & Hocc). by apply (occurs_ci_hit output_formats a).
Qed.

(** X4.  The group of the output format pattern never holds [stla] or
    [stlb]: put in lower case it is one of the six output extensions, so the
    replacement of line 180, which drops the last letter of [stla] and
    [stlb], leaves it as it is. *)
Theorem format_group_is_an_extension (s ext : string) :
  match_output_format s = Some ext →
  lower ext ∈ output_extensions ∧ replace_stl_ab ext = ext.
Proof.
  apply format_group_ok.
Qed.

Lemma format_group_is_an_extension_witness :
  lower "STL" ∈ output_extensions ∧ replace_stl_ab "STL" = "STL".
Proof. exact (format_group_is_an_extension "STLB" "STL" eq_refl). Defined.

(** X5.  For a token that the input file pattern matches, the test of
    line 93, which chooses the binary encoding for reading the file, holds
    exactly when the input format is [stl] in some letter case. *)
Theorem binary_read_for_stl (tok e : string) :
  match_input_file tok = Some e →
  (test_stl_file tok = true ↔ lower e = "stl").
Proof.
  intros (pre & c & -> & Hc & He)%match_input_file_sound.
  unfold test_stl_file. rewrite bool_decide_eq_true. split.
  - intros [r (pre' & t & Heq & [-> Hr]%dot_alt_to_end_Some)%search_Some].
    assert (dot_free r) as Hd.
    { apply (lower_in_dot_free ["stl"]); [by repeat constructor|done]. }
    pose proof (extension_of_input pre c e He) as H1.
    rewrite Heq, (extension_of_app pre' r Hd) in H1. injection H1 as ->.
    by apply list_elem_of_singleton in Hr.
  - intros Hstl.
    replace (pre +:+ String c ("." +:+ e)) with ((pre +:+ String c "") +:+ "." +:+ e)
      by (by rewrite app_assoc).
    apply search_hit. rewrite dot_alt_to_end_hit; [done|].
    rewrite Hstl. by apply list_elem_of_singleton.
Qed.

Lemma binary_read_for_stl_witness :
  test_stl_file "PART.Stl" = true ↔ lower "Stl" = "stl".
Proof. exact (binary_read_for_stl "PART.Stl" "Stl" eq_refl). Defined.

(** X6.  Replacing the extension (line 182) changes a path only after its
    last dot: a path with a non-empty extension keeps its stem and gets the
    new extension; a path without a dot, or that ends in a dot, is returned
    unchanged. *)
Theorem replace_extension_cases (x s : string) :
  match extension_of s with
  | Some (String c e) =>
      ∃ stem, s = stem +:+ "." +:+ String c e
              ∧ replace_extension x s = stem +:+ "." +:+ x
  | _ => replace_extension x s = s
  end.
Proof.
  destruct (extension_of s) as [[|c e]|] eqn:E.
  - apply replace_extension_none. intros stem e -> He.
    rewrite (extension_of_app stem e He) in E. by injection E.
  - destruct (extension_of_Some _ _ E) as (stem & -> & Hd).
    exists stem. split; [done|]. by apply replace_extension_app.
  - apply replace_extension_none. intros stem e -> He.
    by rewrite (extension_of_app stem e He) in E.
Qed.

(** * More properties of the argument parser *)

(** X7.  [-of] and [-o] take the token that follows as their value whatever
    it looks like, and the loop resumes after it; as the last token they
    store [undefined], which erases a value given earlier. *)
Theorem flag_takes_next_token W (t : string) (rest : list string) (a : Args)
    (tr : list event) :
  parse_loop W ("-of" :: t :: rest) a tr
  = parse_loop W rest (set_outputFormat (str t) a) tr
  ∧ parse_loop W ("-o" :: t :: rest) a tr
    = parse_loop W rest (set_outputFile (str t) a) tr
  ∧ parse_loop W ["-of"] a tr = (Returned (set_outputFormat undefined a), tr)
  ∧ parse_loop W ["-o"] a tr = (Returned (set_outputFile undefined a), tr).
Proof. by rewrite !parse_loop_cons. Qed.

(** X8.  The joined form [-o<value>] needs a value of two characters at
    least.  A value without white space becomes the output file; a value
    with white space after its first character is kept together with the
    [-o] in front of it, since the pattern of line 131 does not match.  With
    a value of one character the token is no flag at all and is refused. *)
Theorem joined_output_value W (c d : ascii) (v : string) (rest : list string)
    (a : Args) (tr : list event) :
  non_space c = true → any_char d = true →
  let tok := "-o" +:+ String c (String d v) in
  parse_token W tok rest a tr
  = (Returned (set_outputFile
                 (str (if all non_space (String d v) then String c (String d v) else tok))
                 a, false), tr)
  ∧ (c ≠ "f"%char →
     parse_token W ("-o" +:+ String c "") rest a tr
     = (Failed (ExitInvalidArgument ("-o" +:+ String c "")),
        (tr ++ [ConsoleLog ("ERROR: invalid file name or argument <"
                              +:+ ("-o" +:+ String c "") +:+ ">");
                ConsoleLog "Type 'openjscad' for help"])%list)).
Proof.
  intros Hc Hd tok. split.
  - subst tok. change ("-o" +:+ String c (String d v))
      with (String "-" (String "o" (String c (String d v)))).
    unfold parse_token, test_dash_o_value, replace_dash_o.
    rewrite (proj2 (eqb_false _ "-of")) by (intros [= _ ?]; done).
    simpl. rewrite Hc, Hd. simpl.
    by destruct (non_space d && all non_space v).
  - intros Hf.
    change ("-o" +:+ String c "") with (String "-" (String "o" (String c ""))).
    rewrite (parse_token_bare W _ rest a).
    + rewrite short_no_input by (simpl; lia). unfold test_dash_v.
      rewrite (proj2 (eqb_false _ "-v")) by done.
      unfold bind, log, emit, fail. by rewrite <- List.app_assoc.
    + unfold bare, test_dash_o_value, match_param_assign, match_param_name.
      rewrite (proj2 (eqb_false _ "-of")) by (intros [= ?]; done).
      by rewrite (proj2 (eqb_false _ "-o")).
Qed.

Lemma joined_output_value_witness :
  parse_token every_path_a_file "-omy file.stl" [] initial []
  = (Returned (set_outputFile (str "-omy file.stl") initial, false), []).
Proof.
  exact (proj1 (joined_output_value every_path_a_file "m" "y" " file.stl" [] initial []
                  eq_refl eq_refl)).
Defined.

(** X9.  The one-token form [--name=value] stores under [name] everything
    after the first equals sign, further equals signs included and the empty
    text as well, and does not touch the token that follows. *)
Theorem assign_form_parameter W (name v : string) (rest : list string) (a : Args)
    (tr : list event) :
  name ≠ "" → all is_word_char name = true → all any_char v = true →
  parse_loop W (("--" +:+ name +:+ "=" +:+ v) :: rest) a tr
  = parse_loop W rest (set_param name (str v) a) tr
  ∧ (name ≠ "__proto__" →
     gMainParam (set_param name (str v) a) !! name = Some (str v)).
Proof.
  intros Hne Hw Hv. split.
  - rewrite parse_loop_cons.
    assert (parse_token W ("--" +:+ name +:+ "=" +:+ v) rest a
            = ret (set_param name (str v) a, false)) as ->; [|done].
    change ("--" +:+ name +:+ "=" +:+ v)
      with (String "-" (String "-" (name +:+ String "=" v))).
    unfold parse_token, test_dash_o_value, match_param_assign.
    rewrite (proj2 (eqb_false _ "-of")) by done.
    rewrite (proj2 (eqb_false _ "-o")) by done.
    simpl. rewrite (span_stop is_word_char name "=" v Hw eq_refl).
    destruct name as [|c n]; [done|].
    rewrite bool_decide_eq_true_2 by done. by rewrite (span_all _ _ Hv).
  - intros Hp. unfold set_param, obj_set. simpl.
    rewrite bool_decide_eq_false_2 by done. apply lookup_insert_eq.
Qed.

Lemma assign_form_parameter_witness :
  parse_loop every_path_a_file ["--label=a=b"; "model.jscad"] initial []
  = parse_loop every_path_a_file ["model.jscad"] (set_param "label" (str "a=b") initial) [].
Proof.
  exact (proj1 (assign_form_parameter every_path_a_file "label" "a=b" ["model.jscad"]
                  initial [] ltac:(discriminate) eq_refl eq_refl)).
Defined.

(** X10.  A token that does not begin with a dash and holds no dot, the
    empty token included, is refused: the parser prints the two lines of
    lines 151-152 with the token in them and exits, whatever follows. *)
Theorem unknown_token_refused W (tok : string) (rest : list string) (a : Args)
    (tr : list event) :
  strip_prefix "-" tok = None → dot_free tok →
  parse_loop W (tok :: rest) a tr
  = (Failed (ExitInvalidArgument tok),
     (tr ++ [ConsoleLog ("ERROR: invalid file name or argument <" +:+ tok +:+ ">");
             ConsoleLog "Type 'openjscad' for help"])%list).
Proof.
  intros Hdash Hdot. rewrite parse_loop_cons.
  assert (bare tok = true) as Hb.
  { destruct tok as [|c s]; [done|]. apply bare_no_dash. intros ->. discriminate Hdash. }
  rewrite (parse_token_bare W tok rest a Hb), (dot_free_no_input tok Hdot).
  unfold test_dash_v. rewrite (proj2 (eqb_false tok "-v")) by (by intros ->).
  unfold bind, log, emit, fail. by rewrite <- List.app_assoc.
Qed.

Lemma unknown_token_refused_witness :
  parse_loop every_path_a_file ["model"; "-of"; "stl"] initial []
  = (Failed (ExitInvalidArgument "model"),
     [ConsoleLog "ERROR: invalid file name or argument <model>";
      ConsoleLog "Type 'openjscad' for help"]).
Proof.
  exact (unknown_token_refused every_path_a_file "model" ["-of"; "stl"] initial []
           eq_refl eq_refl).
Defined.

(** X11.  Of two input files in a row the second one wins: the loop goes on
    as if the first had not been given (though the first must name a regular
    file too, or the parser stops at it). *)
Theorem last_input_file_wins W (t1 t2 e1 e2 : string) (rest : list string) (a : Args)
    (tr : list event) :
  bare t1 = true → match_input_file t1 = Some e1 → statSync_isFile W t1 = Some true →
  bare t2 = true → match_input_file t2 = Some e2 → statSync_isFile W t2 = Some true →
  parse_loop W (t1 :: t2 :: rest) a tr = parse_loop W (t2 :: rest) a tr.
Proof.
  intros Hb1 Hm1 Hs1 Hb2 Hm2 Hs2.
  rewrite parse_loop_cons, (parse_token_input_file W t1 _ a e1 Hb1 Hm1 Hs1).
  unfold ret, advance.
  rewrite !(parse_loop_cons W t2).
  by rewrite !(parse_token_input_file W t2 _ _ e2 Hb2 Hm2 Hs2).
Qed.

Lemma last_input_file_wins_witness :
  parse_loop every_path_a_file ["a.scad"; "b.stl"] initial []
  = parse_loop every_path_a_file ["b.stl"] initial [].
Proof.
  exact (last_input_file_wins every_path_a_file "a.scad" "b.stl" "scad" "stl" [] initial []
           eq_refl eq_refl eq_refl eq_refl eq_refl eq_refl).
Defined.

(** X12.  Whenever the parser returns, the input file of the request is
    either unset, together with the input format, or it is one of the
    arguments: a bare token that the input file pattern matches and that
    names a regular file, the input format being the extension the pattern
    found in it. *)
Theorem parsed_input_names_a_regular_file W (args : list string) (a : Args)
    (tr : list event) :
  run (parseArgs W args) = (Returned a, tr) →
  (inputFile a = undefined ∧ inputFormat a = undefined)
  ∨ ∃ p e, inputFile a = str p ∧ inputFormat a = str e ∧ p ∈ args
           ∧ bare p = true ∧ match_input_file p = Some e
           ∧ statSync_isFile W p = Some true.
Proof.
  intros (a0 & Hrun & ->)%parseArgs_returned_inv.
  apply parse_loop_returned in Hrun.
  set (I := λ (a : Args) (_ : list event),
         (inputFile a = undefined ∧ inputFormat a = undefined)
         ∨ ∃ p e, inputFile a = str p ∧ inputFormat a = str e ∧ p ∈ args
                  ∧ bare p = true ∧ match_input_file p = Some e
                  ∧ statSync_isFile W p = Some true).
  assert (I a0 tr) as Ha0.
  { refine (proj1 (loop_reaches_invariant W I args _ _ _ _ _ _ _ Hrun _ _)).
    - intros tok rest a tr0 a1 used tr1 Hin Hturn Ha.
      destruct Hturn; try exact Ha.
      right. exists tok, e. by repeat split.
    - done.
    - by left. }
  by destruct (negb _ && negb _).
Qed.

Lemma parsed_input_names_a_regular_file_witness :
  (inputFile (mkArgs (str "model.jscad") (str "jscad") undefined (str "amf") ∅) = undefined
   ∧ inputFormat (mkArgs (str "model.jscad") (str "jscad") undefined (str "amf") ∅) = undefined)
  ∨ ∃ p e, str "model.jscad" = str p ∧ str "jscad" = str e
           ∧ p ∈ ["-of"; "amf"; "model.jscad"]
           ∧ bare p = true ∧ match_input_file p = Some e
           ∧ statSync_isFile only_model_jscad p = Some true.
Proof.
  exact (parsed_input_names_a_regular_file only_model_jscad ["-of"; "amf"; "model.jscad"]
           (mkArgs (str "model.jscad") (str "jscad") undefined (str "amf") ∅) [] eq_refl).
Defined.

(** X13.  The parser only prints to the console, whatever its arguments and
    however it ends; and when it returns for arguments without a [-v] token
    it has printed nothing. *)
Theorem parser_prints_only W (args : list string) (o : outcome Args) (tr : list event) :
  run (parseArgs W args) = (o, tr) →
  console_only tr ∧ (∀ a, o = Returned a → "-v" ∉ args → tr = []).
Proof.
  intros Hrun. split; [by apply (parseArgs_console W args o)|].
  intros a -> Hv.
  apply parseArgs_returned_inv in Hrun as (a0 & Hrun & _).
  apply parse_loop_returned in Hrun.
  refine (proj1 (loop_reaches_invariant W (λ _ tr, tr = []) args _ _ _ _ _ _ _ Hrun _ _));
    [|done..].
  intros tok rest a1 tr0 a2 used tr1 Hin Hturn ->.
  destruct Hturn; try done. by subst.
Qed.

Lemma parser_prints_only_witness :
  console_only [] ∧ (∀ a, Returned (mkArgs undefined undefined undefined (str "amf") ∅)
                          = Returned a → "-v" ∉ ["-of"; "amf"] → @nil event = []).
Proof.
  exact (parser_prints_only every_path_a_file ["-of"; "amf"]
           (Returned (mkArgs undefined undefined undefined (str "amf") ∅)) [] eq_refl).
Defined.

(** X14.  The parser fails with a usage error in two cases only, and in
    both it does: there are no arguments at all, or the loop arrives at a
    bare token that the input file pattern does not match and that is not
    [-v].  A missing input file is not among them. *)
Theorem usage_error_cases W (args : list string) :
  fails_with UsageError (result (parseArgs W args)) ↔
  args = []
  ∨ ∃ tok rest a tr,
      loop_reaches W args initial [] (tok :: rest) a tr
      ∧ bare tok = true ∧ match_input_file tok = None ∧ tok ≠ "-v".
Proof.
  unfold result. split.
  - destruct (run (parseArgs W args)) as [[a|f] tr] eqn:Hrun; [done|]. simpl.
    intros Hc.
    apply parseArgs_failed_inv in Hrun
      as [[-> _]|(tok & rest & a1 & tr1 & Hreach & Hb & Hf)]; [by left|].
    right. exists tok, rest, a1, tr1.
    destruct Hf; try discriminate Hc. done.
  - intros [->|(tok & rest & a & tr & Hreach & Hb & Hm & Hv)]; [done|].
    assert (parse_token W tok rest a tr
            = (Failed (ExitInvalidArgument tok),
               (tr ++ [ConsoleLog ("ERROR: invalid file name or argument <" +:+ tok +:+ ">");
                       ConsoleLog "Type 'openjscad' for help"])%list)) as Hfail.
    { rewrite (parse_token_bare W tok rest a Hb), Hm.
      unfold test_dash_v. rewrite (proj2 (eqb_false tok "-v")) by done.
      unfold bind, log, emit, fail. by rewrite <- List.app_assoc. }
    by rewrite (proj1 (reached_failure W _ _ _ _ _ _ _ Hreach Hfail)).
Qed.

(** X15.  The parser fails with FileNotFoundError exactly when the loop
    arrives at a bare token that the input file pattern matches and that
    does not name a regular file. *)
Theorem file_error_cases W (args : list string) :
  fails_with FileNotFoundError (result (parseArgs W args)) ↔
  ∃ tok rest a tr e,
    loop_reaches W args initial [] (tok :: rest) a tr
    ∧ bare tok = true ∧ match_input_file tok = Some e
    ∧ statSync_isFile W tok ≠ Some true.
Proof.
  unfold result. split.
  - destruct (run (parseArgs W args)) as [[a|f] tr] eqn:Hrun; [done|]. simpl.
    intros Hc.
    apply parseArgs_failed_inv in Hrun
      as [[-> ->]|(tok & rest & a1 & tr1 & Hreach & Hb & Hf)]; [done|].
    destruct Hf as [e Hm Hs|e Hm Hs| | |]; try discriminate Hc;
      exists tok, rest, a1, tr1, e; by rewrite Hs.
  - intros (tok & rest & a & tr & e & Hreach & Hb & Hm & Hs).
    destruct (parse_token_missing_file W tok rest a e tr Hb Hm Hs)
      as (f & tr' & Hfail & Hc & _).
    by rewrite (proj1 (reached_failure W _ _ _ _ _ _ _ Hreach Hfail)).
Qed.

(** X16.  A request the parser returns always carries an output format or
    an output path.  If it also carries an input file, resolving its output
    either returns or fails with InvalidOutputError: the resolver never
    calls a method of [undefined] on it. *)
Theorem parsed_output_is_resolvable W (args : list string) (a : Args) (tr : list event) :
  run (parseArgs W args) = (Returned a, tr) →
  (present (outputFormat a) ∨ present (outputFile a))
  ∧ (∀ p f, inputFile a = str p →
       result (determineOutputNameAndFormat (inputFile a) (outputFormat a) (outputFile a))
       = Failed f →
       classify f = InvalidOutputError).
Proof.
  intros (a0 & _ & Ha)%parseArgs_returned_inv.
  assert (present (outputFormat a) ∨ present (outputFile a)) as Hp.
  { subst a. unfold present.
    destruct (truthy (outputFormat a0)) eqn:E1, (truthy (outputFile a0)) eqn:E2;
      simpl; rewrite ?E1, ?E2; auto. }
  split; [done|]. intros p f Hin.
  destruct (truthy (outputFormat a)) eqn:Hfmt.
  - destruct (present_str _ Hfmt) as (s & Hs & _). rewrite Hs in Hfmt |- *.
    rewrite resolve_override by (by left). rewrite Hin.
    destruct (match_output_format s); [|by intros [= <-]].
    by destruct (truthy (outputFile a)).
  - destruct Hp as [Hp|Hp]; [unfold present in Hp; congruence|].
    destruct (present_str _ Hp) as (o & Ho & Hne). rewrite Ho.
    rewrite (resolve_named _ _ o Hfmt Hne).
    destruct (match_output_file o); [done|]. by intros [= <-].
Qed.

Lemma parsed_output_is_resolvable_witness :
  present (str "stla") ∨ present undefined.
Proof.
  exact (proj1 (parsed_output_is_resolvable only_model_jscad ["model.jscad"]
                  (mkArgs (str "model.jscad") (str "jscad") undefined (str "stla") ∅) []
                  eq_refl)).
Defined.

(** X17.  The parser asks the file system only about those of its arguments
    that the input file pattern matches: in two environments that agree on
    them and on the [-v] report, it ends the same way with the same trace. *)
Theorem parser_asks_about_arguments_only (W1 W2 : World) (args : list string) :
  (∀ t, t ∈ args → is_Some (match_input_file t) →
        statSync_isFile W1 t = statSync_isFile W2 t) →
  OpenJsCad_env W1 = OpenJsCad_env W2 →
  openscad_version W1 = openscad_version W2 →
  run (parseArgs W1 args) = run (parseArgs W2 args).
Proof.
  intros Hstat Henv Hver.
  assert (∀ tok rest a, tok ∈ args →
            parse_token W1 tok rest a = parse_token W2 tok rest a) as Htok.
  { intros tok rest a Hin. unfold parse_token. rewrite Henv, Hver.
    destruct (match_input_file tok) eqn:E; [|done].
    by rewrite (Hstat tok Hin) by (by rewrite E). }
  assert (∀ n l a tr, length l = n → l ⊆ args →
            parse_loop W1 l a tr = parse_loop W2 l a tr) as Hloop.
  { intros n. induction (lt_wf n) as [n _ IH]. intros [|tok rest] a tr <- Hsub; [done|].
    rewrite !parse_loop_cons, (Htok tok rest a) by (apply Hsub; by left).
    destruct (parse_token W2 tok rest a tr) as [[[a1 used]|f] tr1]; [|done].
    apply (IH (length (advance rest used))); [|done|].
    - pose proof (advance_length rest used). simpl. lia.
    - intros t Ht. apply Hsub. right.
      destruct used; [|done]. destruct rest; [done|]. by right. }
  unfold run, parseArgs, bind. destruct args as [|tok rest]; [done|].
  by rewrite (Hloop _ (tok :: rest) initial [] eq_refl).
Qed.

Lemma parser_asks_about_arguments_only_witness :
  run (parseArgs only_model_jscad ["model.jscad"; "-o"; "out.dxf"])
  = run (parseArgs (mkWorld (λ _, Some true) (Some ["OpenJSCAD"]) (Some "1"))
           ["model.jscad"; "-o"; "out.dxf"]).
Proof.
  apply parser_asks_about_arguments_only; [|reflexivity..].
  intros t Ht Hm.
  repeat (apply elem_of_cons in Ht as [->|Ht];
          [first [reflexivity | by destruct Hm]|]).
  by apply elem_of_nil in Ht.
Defined.

(** * More properties of the output resolver and of the top level *)

(** X18.  The resolver prints exactly when it refuses the output: one line
    that names the output file or the output format it refused.  When it
    returns, and when it stops on a method of [undefined], it has printed
    nothing; it ends in no other way. *)
Theorem resolver_prints_on_refusal_only (inp fmt out : value) (tr : list event)
    (o : outcome (value * value)) (tr' : list event) :
  determineOutputNameAndFormat inp fmt out tr = (o, tr') →
  match o with
  | Returned _ | Failed ThrowTypeError => tr' = tr
  | Failed (ExitInvalidOutputFile f) =>
      out = str f
      ∧ tr' = (tr ++ [ConsoleLog ("ERROR: invalid output file <" +:+ f +:+ ">")])%list
  | Failed (ExitInvalidOutputFormat s) =>
      fmt = str s
      ∧ tr' = (tr ++ [ConsoleLog ("ERROR: invalid output format <" +:+ s)])%list
  | Failed _ => False
  end.
Proof.
  unfold determineOutputNameAndFormat, named_file, ret, bind, fail, log, emit.
  intros H. repeat case_match; by simplify_eq.
Qed.

Lemma resolver_prints_on_refusal_only_witness :
  str "x3d" = str "x3d"
  ∧ [ConsoleLog "ERROR: invalid output format <x3d"]
    = ([] ++ [ConsoleLog ("ERROR: invalid output format <" +:+ "x3d")])%list.
Proof.
  exact (resolver_prints_on_refusal_only (str "model.jscad") (str "x3d") undefined []
           (Failed (ExitInvalidOutputFormat "x3d"))
           [ConsoleLog "ERROR: invalid output format <x3d"] eq_refl).
Defined.

(** X19.  What a resolution returns.  The format is a string in which one
    of the eight tokens occurs.  An output path that was given is returned
    unchanged.  Without an output path the format is the override and the
    path is the input path with its extension replaced by the text the
    pattern of line 177 found in the override: a part of the override that,
    in lower case, is one of the six output extensions.  Without an override
    the format is the extension of the path, one of the six. *)
Theorem resolved_output_shape (inp fmt out f p : value) :
  result (determineOutputNameAndFormat inp fmt out) = Returned (f, p) →
  (∃ s a, f = str s ∧ a ∈ output_formats ∧ occurs_ci a s)
  ∧ (present out → p = out)
  ∧ (absent out →
     ∃ i s ext pre post,
       inp = str i ∧ fmt = str s ∧ f = fmt
       ∧ match_output_format s = Some ext ∧ s = pre +:+ ext +:+ post
       ∧ lower ext ∈ output_extensions
       ∧ p = str (replace_extension ext i))
  ∧ (absent fmt →
     ∃ e, f = str e ∧ e ∈ output_extensions ∧ extension_of (display p) = Some e).
Proof.
  intros Hres.
  destruct (truthy fmt) eqn:Hfmt.
  - destruct (present_str _ Hfmt) as (s & -> & Hs).
    rewrite resolve_override in Hres by (by left).
    destruct (match_output_format s) as [ext|] eqn:Hm; [|done].
    destruct (format_group_ok s ext Hm) as [Hext Hidle].
    destruct (match_output_format_literal s ext Hm) as (pre & post & Hlit).
    assert (∃ s0 a, str s = str s0 ∧ a ∈ output_formats ∧ occurs_ci a s0) as Hocc.
    { destruct (match_output_format_occurs s ext Hm) as (a & Ha & Hocc). by exists s, a. }
    destruct (truthy out) eqn:Hout.
    + injection Hres as <- <-. repeat split; try done.
      * unfold absent. congruence.
      * unfold absent. congruence.
    + destruct inp as [| |i]; try done. injection Hres as <- <-.
      repeat split; try done.
      * unfold present. congruence.
      * intros _. exists i, s, ext, pre, post. by rewrite Hidle.
      * unfold absent. congruence.
  - destruct (truthy out) eqn:Hout.
    + destruct (present_str _ Hout) as (o & -> & Ho).
      rewrite (resolve_named inp fmt o Hfmt Ho) in Hres.
      destruct (match_output_file o) as [e|] eqn:Hm; [|done].
      injection Hres as <- <-.
      apply match_output_file_sound in Hm as [Hext He].
      repeat split; try done.
      * exists e, e. split; [done|]. split.
        -- by apply extension_is_format.
        -- exists "", e, "". rewrite app_nil_l, app_nil_r.
           split; [done|]. by apply output_extensions_lower.
      * unfold absent. congruence.
      * intros _. by exists e.
    + exfalso.
      unfold result, run, determineOutputNameAndFormat, named_file in Hres.
      rewrite Hfmt, Hout in Hres. simpl in Hres.
      destruct fmt as [| |s]; try done.
      assert (s = "") as -> by (by destruct s).
      done.
Qed.

Lemma resolved_output_shape_witness :
  ∃ i s ext pre post,
    str "part.scad" = str i ∧ str "xAMFx" = str s ∧ str "xAMFx" = str "xAMFx"
    ∧ match_output_format s = Some ext ∧ s = pre +:+ ext +:+ post
    ∧ lower ext ∈ output_extensions
    ∧ str "part.AMF" = str (replace_extension ext i).
Proof.
  exact (proj1 (proj2 (proj2 (resolved_output_shape (str "part.scad") (str "xAMFx") undefined
                                (str "xAMFx") (str "part.AMF") eq_refl))) eq_refl).
Defined.

(** X20.  For an override that is a format token in lower case and no
    output path, the path that is made up ends in the token, with the last
    letter of [stla] and [stlb] dropped; given back as an output path
    without an override, it resolves to itself and to that extension. *)
Theorem made_up_path_resolves_back (stem e s : string) (inp' : value) :
  s ∈ output_formats → e ≠ "" → dot_free e →
  let p := stem +:+ "." +:+ replace_stl_ab s in
  result (determineOutputNameAndFormat (str (stem +:+ "." +:+ e)) (str s) undefined)
  = Returned (str s, str p)
  ∧ result (determineOutputNameAndFormat inp' undefined (str p))
    = Returned (str (replace_stl_ab s), str p).
Proof.
  intros Hs He Hdot p. subst p.
  destruct (lower_token_group s Hs) as [Hm Hext].
  assert (dot_free (replace_stl_ab s)) as Hd
    by (by apply (in_dot_free output_extensions), Hext; apply output_extensions_dot_free).
  split.
  - rewrite resolve_override by (by right). rewrite Hm. simpl.
    rewrite (proj2 (format_group_ok s _ Hm)).
    by rewrite replace_extension_app.
  - assert (stem +:+ "." +:+ replace_stl_ab s ≠ "") as Hne by (by destruct stem).
    rewrite (resolve_named inp' undefined _ eq_refl Hne).
    by rewrite (match_output_file_complete _ _ (extension_of_app stem _ Hd) Hext).
Qed.

Lemma made_up_path_resolves_back_witness :
  result (determineOutputNameAndFormat (str "part.scad") (str "stlb") undefined)
  = Returned (str "stlb", str "part.stl")
  ∧ result (determineOutputNameAndFormat undefined undefined (str "part.stl"))
    = Returned (str "stl", str "part.stl").
Proof.
  refine (made_up_path_resolves_back "part" "scad" "stlb" undefined _ _ eq_refl).
  - unfold output_formats. by repeat first [apply list_elem_of_here | apply list_elem_of_further].
  - discriminate.
Defined.

(** X21.  The letter case of the override goes into the path that is made
    up: when the text the pattern finds in the override holds a capital
    letter, the path ends in that text, and the resolver itself would refuse
    this path as an output path. *)
Theorem capital_override_makes_refused_path (stem e s ext : string) (inp' fmt' : value) :
  match_output_format s = Some ext → ext ≠ lower ext → e ≠ "" → dot_free e →
  absent fmt' →
  result (determineOutputNameAndFormat (str (stem +:+ "." +:+ e)) (str s) undefined)
  = Returned (str s, str (stem +:+ "." +:+ ext))
  ∧ result (determineOutputNameAndFormat inp' fmt' (str (stem +:+ "." +:+ ext)))
    = Failed (ExitInvalidOutputFile (stem +:+ "." +:+ ext)).
Proof.
  intros Hm Hcase He Hdot Hfmt.
  destruct (format_group_ok s ext Hm) as [Hext Hidle].
  split.
  - rewrite resolve_override by (by right). rewrite Hm. simpl.
    by rewrite Hidle, replace_extension_app.
  - by apply capital_extension_refused.
Qed.

Lemma capital_override_makes_refused_path_witness :
  result (determineOutputNameAndFormat (str "model.jscad") (str "STL") undefined)
  = Returned (str "STL", str "model.STL")
  ∧ result (determineOutputNameAndFormat undefined undefined (str "model.STL"))
    = Failed (ExitInvalidOutputFile "model.STL").
Proof.
  refine (capital_override_makes_refused_path "model" "jscad" "STL" "STL" undefined undefined
            eq_refl _ _ eq_refl eq_refl); discriminate.
Defined.



(** X23.  The parser stops on an exception out of the [-v] report exactly
    when the loop arrives at a [-v] token and one of the two calls of the
    report throws. *)
Theorem report_error_cases W (args : list string) :
  (∃ tr, run (parseArgs W args) = (Failed ThrowReport, tr)) ↔
  (OpenJsCad_env W = None ∨ openscad_version W = None)
  ∧ ∃ rest a tr, loop_reaches W args initial [] ("-v" :: rest) a tr.
Proof.
  split.
  - intros [tr Hrun].
    apply parseArgs_failed_inv in Hrun
      as [[_ [=]]|(tok & rest & a1 & tr1 & Hreach & Hb & Hf)].
    inversion Hf; subst.
    + split; [by left|eauto].
    + split; [by right|eauto].
  - intros [Hthrow (rest & a & tr & Hreach)].
    assert (∃ tr', parse_token W "-v" rest a tr = (Failed ThrowReport, tr')) as [tr' Hfail].
    { rewrite (parse_token_bare W "-v" rest a eq_refl).
      change (match_input_file "-v") with (@None string).
      change (test_dash_v "-v") with true. cbv beta iota.
      destruct (OpenJsCad_env W) as [lines|]; [|by eexists].
      unfold bind, log, emit. rewrite log_lines_run.
      destruct Hthrow as [?| ->]; [done|]. by eexists. }
    exists tr'. by rewrite (proj1 (reached_failure W _ _ _ _ _ _ _ Hreach Hfail)).
Qed.

(** X24.  When the resolver returns.  It returns exactly in two cases: there
    is no override and the output path, which is given, ends in one of the
    six output extensions; or one of the eight tokens occurs in the override
    and there is an output path or, failing that, an input path to make one
    from. *)
Theorem resolution_returns_iff (inp fmt out : value) :
  (∃ r, result (determineOutputNameAndFormat inp fmt out) = Returned r) ↔
  (absent fmt ∧ ∃ f, out = str f ∧ f ≠ "" ∧ known_output_extension f)
  ∨ (∃ s, fmt = str s ∧ (∃ a, a ∈ output_formats ∧ occurs_ci a s)
          ∧ (present out ∨ ∃ i, inp = str i)).
Proof.
  split.
  - intros [r Hres]. destruct (truthy fmt) eqn:Hfmt.
    + right. destruct (present_str _ Hfmt) as (s & -> & Hs). exists s.
      rewrite resolve_override in Hres by (by left).
      destruct (match_output_format s) as [ext|] eqn:Hm; [|done].
      split; [done|]. split; [by apply (match_output_format_occurs s ext)|].
      destruct (truthy out) eqn:Hout; [by left|].
      right. destruct inp as [| |i]; try done. by exists i.
    + destruct (truthy out) eqn:Hout.
      * left. split; [done|]. destruct (present_str _ Hout) as (o & -> & Ho).
        exists o. split; [done|]. split; [done|].
        rewrite (resolve_named inp fmt o Hfmt Ho) in Hres.
        destruct (match_output_file o) as [e|] eqn:Hm; [|done].
        exists e. by apply match_output_file_sound.
      * exfalso.
        unfold result, run, determineOutputNameAndFormat, named_file in Hres.
        rewrite Hfmt, Hout in Hres. simpl in Hres.
        destruct fmt as [| |s]; try done.
        assert (s = "") as -> by (by destruct s).
        done.
  - intros [[Hfmt (f & -> & Hf & e & Hext & He)]|(s & -> & (a & Ha & Hocc) & Hway)].
    + rewrite (resolve_named inp fmt f Hfmt Hf), (match_output_file_complete f e Hext He).
      eauto.
    + destruct (occurs_ci_hit output_formats a s Ha Hocc) as [ext Hm].
      fold (match_output_format s) in Hm.
      assert (s ≠ "") as Hs by (intros ->; discriminate Hm).
      rewrite resolve_override by (left; by apply nonempty_true). rewrite Hm.
      destruct Hway as [Hout|[i ->]].
      * unfold present in Hout. rewrite Hout. eauto.
      * destruct (truthy out); eauto.
Qed.
